(** * DirHash: a shallow embedding of [DirHash.cpp] and the properties of
    its directory-hashing algorithm.

    The program walks a directory tree depth first, sorts the content of
    every directory with a case-insensitive comparison of the full paths,
    and feeds file contents (and optionally path names) to one OpenSSL hash
    context.  The embedding follows the source function by function:
    [compare_nocase], [Hash::GetHash], [CDirContent], [IsExcludedName],
    [HashFile], [HashDirectory], [WaitForExit] and [_tmain].

    What the program obtains from Windows and from OpenSSL is kept
    abstract in two interfaces ([Shlwapi] and [OpenSSL]); what it obtains
    from the file system is data of the model ([node]). *)

From Stdlib Require Import String Ascii DecimalString.
From Stdlib.Strings Require Import Byte.
From Stdlib Require Import ZArith NArith Lia Bool List Sorted Permutation.
Import ListNotations.

Local Open Scope nat_scope.

(* ================================================================== *)
(** * Wide strings and bytes *)
(* ================================================================== *)

(** The program is compiled with UNICODE: a [TCHAR] is a 16-bit code unit.
    A C string is the list of its code units up to, and without, the
    terminating NUL. *)
Definition wchar := N.
Definition wstring := list wchar.
Definition byte := Byte.byte.

(** [L "text"] is the wide string literal [_T("text")]. *)
Definition L (s : string) : wstring :=
  map (fun a => N_of_ascii a) (list_ascii_of_string s).

(** The bytes of a narrow literal, used for file contents in examples. *)
Definition bytes_of (s : string) : list byte := list_byte_of_string s.

Definition byte_of_N (n : N) : byte :=
  match Byte.of_N (n mod 256) with
  | Some b => b
  | None => x00
  end.

(** [(LPBYTE) sz] read for [_tcslen (sz) * sizeof (TCHAR)] bytes: every code
    unit gives its low byte, then its high byte (little endian). *)
Definition wbytes (sz : wstring) : list byte :=
  flat_map (fun c => [byte_of_N c; byte_of_N (c / 256)]) sz.

Fixpoint wstr_eqb (a b : wstring) : bool :=
  match a, b with
  | [], [] => true
  | c :: a', d :: b' => N.eqb c d && wstr_eqb a' b'
  | _, _ => false
  end.

Definition MAX_PATH : nat := 260.

Definition DWORD := Z.
Definition ERROR_NO_MORE_FILES : DWORD := 18%Z.
Definition NO_ERROR : DWORD := 0%Z.

(** [dwError = -1] stored in an unsigned 32-bit [DWORD]. *)
Definition DWORD_of (z : Z) : DWORD := (z mod 2 ^ 32)%Z.

(** [return dwError] from [int _tmain]: the 32 bits read as a signed int. *)
Definition int_of_DWORD (d : DWORD) : Z :=
  (if d mod 2 ^ 32 <? 2 ^ 31 then d mod 2 ^ 32 else d mod 2 ^ 32 - 2 ^ 32)%Z.

(* ================================================================== *)
(** * printf conversions *)
(* ================================================================== *)

Definition hexdigit (d : N) : wchar :=
  (if d <? 10 then 48 + d else 55 + d)%N.

(** ["%.2X"] applied to a [BYTE]. *)
Definition hex2 (b : byte) : wstring :=
  [hexdigit (Byte.to_N b / 16); hexdigit (Byte.to_N b mod 16)].

(** ["%.8X"] applied to a [DWORD]. *)
Definition hex8 (d : DWORD) : wstring :=
  let n := Z.to_N (d mod 2 ^ 32) in
  map (fun i => hexdigit ((n / 16 ^ i) mod 16)%N) [7; 6; 5; 4; 3; 2; 1; 0]%N.

(** ["%d"] applied to a non-negative int. *)
Definition dec (n : nat) : wstring :=
  L (NilZero.string_of_uint (Nat.to_uint n)).

(* ================================================================== *)
(** * compare_nocase *)
(* ================================================================== *)

(** [towlower] in the C locale (the program never calls setlocale): only
    the letters A to Z change. *)
Definition towlower (c : wchar) : wchar :=
  (if (65 <=? c) && (c <=? 90) then c + 32 else c)%N.

(** [_wcsicmp]: walk both strings, compare the lower-cased code units, stop
    at the first difference or at the terminator of the first string; the
    result is the difference of the two code units reached.  Reading past
    the end of a list reads the terminating NUL. *)
Fixpoint _wcsicmp (first second : wstring) : Z :=
  match first with
  | [] => 0 - Z.of_N (towlower (hd 0%N second))
  | c :: first' =>
      let f := towlower c in
      let l := towlower (hd 0%N second) in
      if negb (N.eqb f 0) && N.eqb f l
      then _wcsicmp first' (tl second)
      else Z.of_N f - Z.of_N l
  end%Z.

(** Used for sorting directory content. *)
Definition compare_nocase (first second : wstring) : bool :=
  (_wcsicmp first second <? 0)%Z.

(* ================================================================== *)
(** * std::list::sort *)
(* ================================================================== *)

(** [std::list<T>::sort (comp)] is a stable sort.  For a comparison that is
    a strict weak order the result of a stable sort is unique, so the
    stable insertion sort below returns the list the library returns. *)
Section ListSort.
Context {A : Type} (comp : A -> A -> bool).

(** [x] goes in front of the first element that is not before it. *)
Fixpoint sort_insert (x : A) (l : list A) : list A :=
  match l with
  | [] => [x]
  | y :: l' => if comp y x then y :: sort_insert x l' else x :: y :: l'
  end.

Fixpoint list_sort (l : list A) : list A :=
  match l with
  | [] => []
  | x :: l' => sort_insert x (list_sort l')
  end.
End ListSort.

(* ================================================================== *)
(** * The hash classes *)
(* ================================================================== *)

Inductive Hash := Md5 | Sha1 | Sha256 | Sha384 | Sha512.

Definition GetID (h : Hash) : wstring :=
  match h with
  | Md5 => L "MD5"
  | Sha1 => L "SHA1"
  | Sha256 => L "SHA256"
  | Sha384 => L "SHA384"
  | Sha512 => L "SHA512"
  end.

Definition GetHashSize (h : Hash) : nat :=
  match h with
  | Md5 => 16
  | Sha1 => 20
  | Sha256 => 32
  | Sha384 => 48
  | Sha512 => 64
  end.

(** [_tcsicmp (a, b) == 0] *)
Definition tcsicmp_eq (a b : wstring) : bool := (_wcsicmp a b =? 0)%Z.

(** [Hash::GetHash] for a non-null identifier; [None] is the NULL result. *)
Definition GetHash (szHashId : wstring) : option Hash :=
  if tcsicmp_eq szHashId (L "SHA1") then Some Sha1
  else if tcsicmp_eq szHashId (L "SHA256") then Some Sha256
  else if tcsicmp_eq szHashId (L "SHA384") then Some Sha384
  else if tcsicmp_eq szHashId (L "SHA512") then Some Sha512
  else if tcsicmp_eq szHashId (L "MD5") then Some Md5
  else None.

(** OpenSSL, through its contract: a context that went through [X_Init]
    and a sequence of [X_Update] calls holds the concatenation of the data
    it was given, and [X_Final] writes the digest of that message, which
    has [GetHashSize] bytes. *)
Class OpenSSL := {
  digest : Hash -> list byte -> list byte;
  digest_length : forall h m, length (digest h m) = GetHashSize h
}.

(** The two shlwapi functions that decide what is hashed, and the one that
    the driver uses to print a name. [PathCanonicalize] returns [None]
    where the API returns FALSE. *)
Class Shlwapi := {
  PathMatchSpec : wstring -> wstring -> bool;
  PathCanonicalize : wstring -> option wstring;
  PathFindFileName : wstring -> wstring
}.

(* ================================================================== *)
(** * The file system *)
(* ================================================================== *)

#[local] Unset Elimination Schemes.
(** What the operating system answers for a path.
    - [File (Some bytes)]: [_tfopen] succeeds and [fread] delivers [bytes];
      [File None]: [_tfopen] returns NULL.
    - [Dir entries last_error]: the entries that [FindFirstFile] and
      [FindNextFile] deliver, in the order of the file system (the "." and
      ".." entries among them), and the value of [GetLastError] when the
      enumeration stops.  [FindFirstFile] fails exactly when there is no
      entry to deliver; a complete enumeration stops with
      [ERROR_NO_MORE_FILES]. *)
Inductive node : Type :=
| File (data : option (list byte))
| Dir (entries : list (wstring * node)) (last_error : DWORD).
#[local] Set Elimination Schemes.

Definition is_dir (n : node) : bool :=
  match n with
  | File _ => false
  | Dir _ _ => true
  end.

(** The "." and ".." entries of a directory listing. *)
Definition dot : wstring * node := (L ".", Dir [] 0%Z).
Definition dotdot : wstring * node := (L "..", Dir [] 0%Z).

(** A directory as Windows lists it when nothing goes wrong. *)
Definition directory (children : list (wstring * node)) : node :=
  Dir (dot :: dotdot :: children) ERROR_NO_MORE_FILES.

Definition file (s : string) : node := File (Some (bytes_of s)).

(* ================================================================== *)
(** * Program state *)
(* ================================================================== *)

(** [hash_input]: the data given to [pHash] since its [Init];
    [console]: the text written to stdout;
    [visited]: history of the paths [HashFile] and [HashDirectory] were
    called with (a ghost field, the program does not keep it). *)
Record state := {
  hash_input : list byte;
  console : wstring;
  visited : list wstring
}.

Definition action := state -> DWORD * state.

(** [pHash->Update (pbData, dwLength)] *)
Definition Update (pbData : list byte) (s : state) : state :=
  {| hash_input := hash_input s ++ pbData;
     console := console s;
     visited := visited s |}.

Definition _tprintf (text : wstring) (s : state) : state :=
  {| hash_input := hash_input s;
     console := console s ++ text;
     visited := visited s |}.

Definition enter (szPath : wstring) (s : state) : state :=
  {| hash_input := hash_input s;
     console := console s;
     visited := visited s ++ [szPath] |}.

(* ================================================================== *)
(** * CDirContent *)
(* ================================================================== *)

Record CDirContent := {
  m_szPath : wstring;
  m_bIsDir : bool
}.

Definition backslash : wchar := 92%N.
Definition slash : wchar := 47%N.

(** The constructor.  Both tests read the last character of the argument
    [szPath], not of the member being built; for an empty [szPath] the
    index is out of range and the model reads a NUL there. *)
Definition mkCDirContent (szPath szName : wstring) (bIsDir : bool) : CDirContent :=
  let last := nth (length szPath - 1) szPath 0%N in
  let m1 := if N.eqb last slash then removelast szPath ++ [backslash] else szPath in
  let m2 := if negb (N.eqb last backslash) then m1 ++ [backslash] else m1 in
  {| m_szPath := m2 ++ szName; m_bIsDir := bIsDir |}.

Definition IsDir (c : CDirContent) : bool := m_bIsDir c.
Definition GetPath (c : CDirContent) : wstring := m_szPath c.

(* ================================================================== *)
(** * The tree walker *)
(* ================================================================== *)

Definition quote : wchar := 34%N.
Definition newline : wchar := 10%N.

(** [sizeof (g_pbBuffer)] *)
Definition BUFFER_SIZE : nat := 4096.

(** The loop [while ((len = fread (g_pbBuffer, 1, sizeof (g_pbBuffer), f)) != 0)
    pHash->Update (g_pbBuffer, len)], on the bytes not yet read.  [fuel]
    bounds the number of iterations; [read_file] gives one more than the
    file has bytes, which is never used up ([fread_loop_enough]). *)
Fixpoint fread_loop (fuel : nat) (unread : list byte) (s : state) : state :=
  match fuel with
  | 0 => s
  | S fuel' =>
      match firstn BUFFER_SIZE unread with
      | [] => s
      | chunk => fread_loop fuel' (skipn BUFFER_SIZE unread) (Update chunk s)
      end
  end.

Definition read_file (bytes : list byte) (s : state) : state :=
  fread_loop (S (length bytes)) bytes s.

(** An entry delivered by [FindFirstFile] or [FindNextFile]: the two fields
    of [WIN32_FIND_DATA] that the program reads, and what hashing the
    object behind the entry does once the program has built its path. *)
Record found := {
  cFileName : wstring;
  isDirectory : bool;
  hash_it : wstring -> action
}.

Section Walker.
Context {shlwapi : Shlwapi}.
Variable bIncludeNames : bool.
Variable excludeSpecList : list wstring.

Fixpoint IsExcludedName (szName : wstring) (specs : list wstring) : bool :=
  match specs with
  | [] => false
  | spec :: specs' =>
      if PathMatchSpec szName spec then true else IsExcludedName szName specs'
  end.

Definition list_empty (l : list wstring) : bool :=
  match l with
  | [] => true
  | _ :: _ => false
  end.

(** [pathLen <= MAX_PATH && !excludeSpecList.empty () &&
    IsExcludedName (szPath, excludeSpecList)] *)
Definition skipped (szPath : wstring) : bool :=
  (length szPath <=? MAX_PATH)
  && negb (list_empty excludeSpecList)
  && IsExcludedName szPath excludeSpecList.

(** What ends up in [g_szCanonalizedName]: the canonical form, or the
    copy made by [lstrcpy] when [PathCanonicalize] fails. *)
Definition canonalized (szPath : wstring) : wstring :=
  match PathCanonicalize szPath with
  | Some c => c
  | None => szPath
  end.

(** The block under [if (bIncludeNames)], the same in both functions. *)
Definition hash_name (szPath : wstring) (s : state) : state :=
  if bIncludeNames then
    if MAX_PATH <? length szPath
    then Update (wbytes szPath) s
    else Update (wbytes (canonalized szPath)) s
  else s.

Definition HashFile (szFilePath : wstring) (data : option (list byte)) : action :=
  fun s0 =>
    let s := enter szFilePath s0 in
    if skipped szFilePath then (0%Z, s)
    else
      let s := hash_name szFilePath s in
      match data with
      | Some bytes => (0%Z, read_file bytes s)
      | None =>
          (DWORD_of (-1),
           _tprintf (L "Failed to open file " ++ [quote] ++ szFilePath
                       ++ [quote] ++ L " for reading" ++ [newline]) s)
      end.

(** The do-while loop that fills [dirContent]. *)
Fixpoint list_content (szDirPath : wstring) (ffds : list found)
  : list (CDirContent * (wstring -> action)) :=
  match ffds with
  | [] => []
  | ffd :: ffds' =>
      if isDirectory ffd then
        (* Skip "." and ".." directories *)
        if negb (wstr_eqb (cFileName ffd) (L "."))
           && negb (wstr_eqb (cFileName ffd) (L ".."))
        then (mkCDirContent szDirPath (cFileName ffd) true, hash_it ffd)
               :: list_content szDirPath ffds'
        else list_content szDirPath ffds'
      else (mkCDirContent szDirPath (cFileName ffd) false, hash_it ffd)
             :: list_content szDirPath ffds'
  end.

(** [dirContent.sort (compare_nocase)]: the elements are compared through
    their conversion to [LPCWSTR], the full path. *)
Definition content_before (a b : CDirContent * (wstring -> action)) : bool :=
  compare_nocase (GetPath (fst a)) (GetPath (fst b)).

(** The for loop over the sorted [dirContent]; [it->IsDir ()] chooses
    between [HashDirectory] and [HashFile], which is what [hash_it] of
    the entry is. *)
Fixpoint visit_all (content : list (CDirContent * (wstring -> action)))
  : action :=
  fun s =>
    match content with
    | [] => (0%Z, s)
    | it :: content' =>
        let (dwError, s') := snd it (GetPath (fst it)) s in
        if negb (dwError =? 0)%Z then (dwError, s')
        else visit_all content' s'
    end.

(** [HashDirectory] on a directory whose enumeration delivers [ffds] and
    stops with [last_error]; the recursive call and the call of [HashFile]
    are the [hash_it] of the elements. *)
Definition HashDirectory (szDirPath : wstring) (ffds : list found)
           (last_error : DWORD) : action :=
  fun s0 =>
    let s := enter szDirPath s0 in
    if skipped szDirPath then (0%Z, s)
    else
      let s := hash_name szDirPath s in
      match ffds with
      | [] =>
          (last_error,
           _tprintf (L "FindFirstFile failed on " ++ [quote] ++ szDirPath
                       ++ [quote] ++ L " with error 0x" ++ hex8 last_error
                       ++ L "." ++ [newline]) s)
      | _ :: _ =>
          let dirContent := list_content szDirPath ffds in
          if negb (last_error =? ERROR_NO_MORE_FILES)%Z then
            (last_error,
             _tprintf (L "FindNextFile failed while listing " ++ [quote]
                         ++ szDirPath ++ [quote] ++ L ". " ++ [newline]
                         ++ L " Error 0x" ++ hex8 last_error ++ L "."
                         ++ [newline]) s)
          else visit_all (list_sort content_before dirContent) s
      end.

(** The recursion of [HashDirectory]: the walker on the object [n] found
    at [szPath].  A file is hashed by [HashFile]; a directory by
    [HashDirectory], where hashing an entry is the walker on the object
    behind that entry. *)
Fixpoint HashTree (n : node) : wstring -> action :=
  match n with
  | File data => fun szPath => HashFile szPath data
  | Dir entries last_error =>
      fun szPath =>
        HashDirectory szPath
          (map (fun e : wstring * node =>
                  let (name, child) := e in
                  {| cFileName := name;
                     isDirectory := is_dir child;
                     hash_it := HashTree child |}) entries)
          last_error
  end.
End Walker.

(* ================================================================== *)
(** * The driver *)
(* ================================================================== *)

(** What the driver asks Windows: [target] is the object at [argv[1]]
    ([None] when [PathFileExists] is false; a [Dir] when [PathIsDirectory]
    holds), [can_append] tells whether [_tfopen (name, "a+t")] succeeds. *)
Record World := {
  target : option node;
  can_append : wstring -> bool
}.

(** [StringCchLength (psz, cchMax, &len)] from strsafe.h: the length when
    the terminator is among the first [cchMax] characters; otherwise the
    call fails with STRSAFE_E_INVALID_PARAMETER and stores 0. *)
Definition StringCchLength (psz : wstring) (cchMax : nat) : nat :=
  if length psz <? cchMax then length psz else 0.

Definition lines (ls : list string) : wstring :=
  flat_map (fun l => L l ++ [newline]) ls.

Definition banner : wstring :=
  [newline]
  ++ lines ["DirHash by Mounir IDRASSI (mounir@idrix.fr) Copyright 2010-2015";
            "";
            "Recursively compute hash of a given directory content in lexicographical order.";
            "It can also compute the hash of a single file.";
            "";
            "Supported Algorithms : MD5, SHA1, SHA256, SHA384, SHA512";
            "Using OpenSSL";
            ""]%string.

Definition ShowUsage : wstring :=
  lines ["Usage: DirHash.exe DirectoryOrFilePath [HashAlgo] [-t ResultFileName] [-nowait] [-hashnames] [-exclude pattern1] [-exclude pattern2]";
         "  Possible values for HashAlgo (not case sensitive, default is SHA1) : ";
         "   - MD5";
         "   - SHA1";
         "   - SHA256";
         "   - SHA384";
         "   - SHA512";
         "";
         "  ResultFileName specifies a text file where the result will be appended";
         "";
         "  -nowait avoids displaying the waiting prompt before exiting";
         ""]%string
  ++ L "  -hashnames indicates that file names will be included in the hash computation".

(** The text [WaitForExit] prints; [getchar] is not modelled. *)
Definition WaitForExit (bDontWait : bool) : wstring :=
  if bDontWait then []
  else [newline; newline] ++ L "Press ENTER to exit the program ...".

(** The locals of [_tmain] that the switches set. *)
Record options := {
  outputFile : option wstring;
  bDontWait : bool;
  bIncludeNames : bool;
  excludeSpecList : list wstring;
  pHash : option Hash
}.

Definition no_options : options :=
  {| outputFile := None; bDontWait := false; bIncludeNames := false;
     excludeSpecList := []; pHash := None |}.

(** The loop over [argv[2]] ... [argv[argc - 1]].  [inr text] is a
    [return 1] after [text] was printed. *)
Fixpoint parse_args (w : World) (args : list wstring) (o : options)
  : options + wstring :=
  match args with
  | [] => inl o
  | arg :: rest =>
      if wstr_eqb arg (L "-t") then
        match rest with
        | [] =>
            inr (lines ["Error: Missing argument for switch -t"; ""]%string
                 ++ ShowUsage ++ WaitForExit false)
        | name :: rest' =>
            if can_append w name then
              parse_args w rest'
                {| outputFile := Some name; bDontWait := bDontWait o;
                   bIncludeNames := bIncludeNames o;
                   excludeSpecList := excludeSpecList o; pHash := pHash o |}
            else
              inr (lines ["Failed to open the result file for writing!"]%string
                   ++ WaitForExit false)
        end
      else if wstr_eqb arg (L "-nowait") then
        parse_args w rest
          {| outputFile := outputFile o; bDontWait := true;
             bIncludeNames := bIncludeNames o;
             excludeSpecList := excludeSpecList o; pHash := pHash o |}
      else if wstr_eqb arg (L "-hashnames") then
        parse_args w rest
          {| outputFile := outputFile o; bDontWait := bDontWait o;
             bIncludeNames := true;
             excludeSpecList := excludeSpecList o; pHash := pHash o |}
      else if wstr_eqb arg (L "-exclude") then
        match rest with
        | [] =>
            inr (lines ["Error: Missing argument for switch -exclude"; ""]%string
                 ++ ShowUsage ++ WaitForExit false)
        | spec :: rest' =>
            parse_args w rest'
              {| outputFile := outputFile o; bDontWait := bDontWait o;
                 bIncludeNames := bIncludeNames o;
                 excludeSpecList := excludeSpecList o ++ [spec];
                 pHash := pHash o |}
        end
      else
        match GetHash arg with
        | Some h =>
            parse_args w rest
              {| outputFile := outputFile o; bDontWait := bDontWait o;
                 bIncludeNames := bIncludeNames o;
                 excludeSpecList := excludeSpecList o; pHash := Some h |}
        | None =>
            inr (L "Error: Argument " ++ [quote] ++ arg ++ [quote]
                 ++ L " not recognized" ++ [newline; newline]
                 ++ ShowUsage ++ WaitForExit false)
        end
  end.

(** What a run leaves behind: the value returned by [_tmain], the text on
    stdout, the text written to the result file that is open at the end
    (with its name), the digest if [pHash->Final] was called, and the state
    of the walker if it ran. *)
Record outcome := {
  exit_status : Z;
  stdout : wstring;
  written : option (wstring * wstring);
  pbDigest : option (list byte);
  walked : option state
}.

(** The result file is open and nothing was written to it. *)
Definition opened (o : options) : option (wstring * wstring) :=
  match outputFile o with
  | Some name => Some (name, [])
  | None => None
  end.

Definition early_exit (status : Z) (text : wstring)
           (file : option (wstring * wstring)) : outcome :=
  {| exit_status := status; stdout := banner ++ text; written := file;
     pbDigest := None; walked := None |}.

(** [argv[1]] as [HashDirectory] receives it: a trailing backslash or slash
    is overwritten with the terminator. *)
Definition strip_trailing (path : wstring) : wstring :=
  let last := nth (length path - 1) path 0%N in
  if N.eqb last backslash || N.eqb last slash then removelast path else path.

(** The loop that prints the digest. *)
Definition hex_digest (h : Hash) (digest_buffer : list byte) : wstring :=
  flat_map hex2 (firstn (GetHashSize h) digest_buffer).

Section Driver.
Context {shlwapi : Shlwapi} {openssl : OpenSSL}.

(** What goes to stdout under [if (dwError == NO_ERROR)]. *)
Definition stdout_result (h : Hash) (digest_buffer : list byte) : wstring :=
  GetID h ++ L " (" ++ dec (GetHashSize h) ++ L " bytes) = "
  ++ hex_digest h digest_buffer ++ [newline].

(** What goes to the result file there. *)
Definition file_result (h : Hash) (argv1 : wstring) (digest_buffer : list byte)
  : wstring :=
  GetID h ++ L " hash of " ++ [quote] ++ PathFindFileName argv1 ++ [quote]
  ++ L " (" ++ dec (GetHashSize h) ++ L " bytes) = "
  ++ hex_digest h digest_buffer ++ [newline].

Definition using_line (h : Hash) (argv1 : wstring) : wstring :=
  L "Using " ++ GetID h ++ L " to compute hash of " ++ [quote]
  ++ PathFindFileName argv1 ++ [quote] ++ L " ..." ++ [newline].

(** The part of [_tmain] after the checks of [argv[1]]. *)
Definition hash_and_report (o : options) (argv1 : wstring) (n : node)
  : outcome :=
  let h := match pHash o with Some h => h | None => Sha1 end in
  let s0 := {| hash_input := [];
               console := banner ++ using_line h argv1;
               visited := [] |} in
  let (dwError, s) :=
    match n with
    | Dir _ _ =>
        HashTree (bIncludeNames o) (excludeSpecList o) n
                 (strip_trailing argv1) s0
    | File _ =>
        HashTree (bIncludeNames o) (excludeSpecList o) n argv1 s0
    end in
  if (dwError =? NO_ERROR)%Z then
    let digest_buffer := digest h (hash_input s) in
    {| exit_status := int_of_DWORD dwError;
       stdout := console s ++ stdout_result h digest_buffer
                 ++ WaitForExit (bDontWait o);
       written :=
         match outputFile o with
         | Some name => Some (name, file_result h argv1 digest_buffer)
         | None => None
         end;
       pbDigest := Some digest_buffer;
       walked := Some s |}
  else
    {| exit_status := int_of_DWORD dwError;
       stdout := console s ++ WaitForExit (bDontWait o);
       written := opened o;
       pbDigest := None;
       walked := Some s |}.

Definition _tmain (w : World) (argv : list wstring) : outcome :=
  match argv with
  | [] | [_] => early_exit 1 (ShowUsage ++ WaitForExit false) None
  | _ :: argv1 :: args =>
      match parse_args w args no_options with
      | inr text => early_exit 1 text None
      | inl o =>
          let length_of_arg := StringCchLength argv1 MAX_PATH in
          if MAX_PATH - 3 <? length_of_arg then
            early_exit (-1)
              ([newline]
               ++ L "Error: Input directory/file path is too long. Maximum length is "
               ++ dec MAX_PATH ++ L " characters" ++ [newline]
               ++ WaitForExit (bDontWait o))
              (opened o)
          else
            match target w with
            | None =>
                early_exit (-2)
                  (lines ["Error: The given input file doesn't exist"]%string
                   ++ WaitForExit (bDontWait o))
                  (opened o)
            | Some n => hash_and_report o argv1 n
            end
      end
  end.
End Driver.

(* ================================================================== *)
(** * Vocabulary of the properties *)
(* ================================================================== *)

(** The lower-cased code unit a C string starts with; the terminator for
    the empty string. *)
Definition head_lower (sz : wstring) : N := towlower (hd 0%N sz).

(** [x] does not come after [y] for the comparison [comp]. *)
Definition not_after {A : Type} (comp : A -> A -> bool) (x y : A) : Prop :=
  comp y x = false.

(** Lexicographic order on code units. *)
Fixpoint lex_before (a b : list N) : bool :=
  match a, b with
  | _, [] => false
  | [], _ :: _ => true
  | x :: a', y :: b' => (x <? y)%N || ((x =? y)%N && lex_before a' b')
  end.

(** Case-insensitive lexicographic order: the lexicographic order of the
    lower-cased strings. *)
Definition nocase_before (a b : wstring) : bool :=
  lex_before (map towlower a) (map towlower b).

(** A C string holds no NUL. *)
Definition c_string (sz : wstring) : Prop := Forall (fun c => c <> 0%N) sz.

(** An empty hash context and an empty console. *)
Definition fresh : state :=
  {| hash_input := []; console := []; visited := [] |}.

(** [appends a e bytes]: from every state, [a] returns [e] and gives
    exactly [bytes] to the hash. *)
Definition appends (a : action) (e : DWORD) (bytes : list byte) : Prop :=
  forall s, fst (a s) = e /\ hash_input (snd (a s)) = hash_input s ++ bytes.

(** Two actions that return the same code and hash the same bytes. *)
Definition alike (a a' : action) : Prop :=
  exists e bytes, appends a e bytes /\ appends a' e bytes.

Section Effects.
Context {shlwapi : Shlwapi}.
Variable bIncludeNames : bool.
Variable excludeSpecList : list wstring.

(** The bytes of the name that the block under [if (bIncludeNames)]
    gives to the hash. *)
Definition name_bytes (szPath : wstring) : list byte :=
  if bIncludeNames then
    wbytes (if MAX_PATH <? length szPath then szPath else canonalized szPath)
  else [].

(** The code [HashFile] returns and the bytes it hashes. *)
Definition file_effect (szFilePath : wstring) (data : option (list byte))
  : DWORD * list byte :=
  if skipped excludeSpecList szFilePath then (0%Z, [])
  else match data with
       | Some bytes => (0%Z, name_bytes szFilePath ++ bytes)
       | None => (DWORD_of (-1), name_bytes szFilePath)
       end.

Definition item := (CDirContent * (wstring -> action))%type.

(** What visiting one element of [dirContent] does. *)
Definition visit (it : item) : action := snd it (GetPath (fst it)).

Definition sorted_content (szDirPath : wstring) (ffds : list found) : list item :=
  list_sort content_before (list_content szDirPath ffds).

(** The code [HashDirectory] returns and the bytes it hashes, when the
    loop over the sorted content returns [e] and hashes [bytes]. *)
Definition directory_effect (szDirPath : wstring) (ffds : list found)
           (last_error : DWORD) (e : DWORD) (bytes : list byte)
  : DWORD * list byte :=
  if skipped excludeSpecList szDirPath then (0%Z, [])
  else match ffds with
       | [] => (last_error, name_bytes szDirPath)
       | _ :: _ =>
           if negb (last_error =? ERROR_NO_MORE_FILES)%Z
           then (last_error, name_bytes szDirPath)
           else (e, name_bytes szDirPath ++ bytes)
       end.

(** Entries of [szDirPath] with the same name and attribute whose
    objects hash alike under the path the program builds for them. *)
Definition found_alike (szDirPath : wstring) (f f' : found) : Prop :=
  cFileName f = cFileName f'
  /\ isDirectory f = isDirectory f'
  /\ alike (hash_it f (GetPath (mkCDirContent szDirPath (cFileName f)
                                               (isDirectory f))))
           (hash_it f' (GetPath (mkCDirContent szDirPath (cFileName f)
                                                (isDirectory f)))).

Definition item_alike (it it' : item) : Prop :=
  fst it = fst it' /\ alike (visit it) (visit it').

(** The entry the program is given for a child of a directory. *)
Definition found_of (e : wstring * node) : found :=
  let (name, child) := e in
  {| cFileName := name;
     isDirectory := is_dir child;
     hash_it := HashTree bIncludeNames excludeSpecList child |}.

(** The element is a file that opens: visiting it returns 0 and leaves
    one more path in the history. *)
Definition visits_itself (it : item) : Prop :=
  forall s, fst (visit it s) = 0%Z
            /\ visited (snd (visit it s)) = visited s ++ [GetPath (fst it)].

Definition paths (l : list item) : list wstring :=
  map (fun it => GetPath (fst it)) l.
End Effects.

(** The full path the program builds for a child of [szDirPath]. *)
Definition child_path (szDirPath name : wstring) (child : node) : wstring :=
  GetPath (mkCDirContent szDirPath name (is_dir child)).

(** [removed P szDirPath t t']: [t'] is the tree [t], found at
    [szDirPath], without one of its entries, at any depth; the entry
    satisfies [P] with its full path, and the directory that loses it
    still lists an entry (every directory lists "." and ".." but the root
    of a volume). *)
Inductive removed (P : wstring -> node -> Prop) : wstring -> node -> node -> Prop :=
| removed_here szDirPath pre name child post last_error :
    pre ++ post <> [] ->
    P (child_path szDirPath name child) child ->
    removed P szDirPath (Dir (pre ++ (name, child) :: post) last_error)
            (Dir (pre ++ post) last_error)
| removed_below szDirPath pre name child child' post last_error :
    removed P (child_path szDirPath name child) child child' ->
    removed P szDirPath (Dir (pre ++ (name, child) :: post) last_error)
            (Dir (pre ++ (name, child') :: post) last_error).

(** The "." and ".." entries of a listing. *)
Definition is_dot (name : wstring) (child : node) : bool :=
  is_dir child && (wstr_eqb name (L ".") || wstr_eqb name (L "..")).

(** The bytes of all files of a tree, depth first, the children of every
    directory taken in the case-insensitive order of their full paths. *)
Fixpoint files_in_order (n : node) : wstring -> list byte :=
  match n with
  | File data => fun _ => match data with Some bytes => bytes | None => [] end
  | Dir entries _ =>
      fun szPath =>
        concat
          (map snd
             (list_sort (fun a b : wstring * list byte =>
                           compare_nocase (fst a) (fst b))
                (flat_map
                   (fun e : wstring * node =>
                      let (name, child) := e in
                      if is_dot name child then []
                      else [(child_path szPath name child,
                             files_in_order child (child_path szPath name child))])
                   entries)))
  end.

(** A tree that can be read in full: every file opens, every directory is
    listed to its end. *)
Fixpoint readable (n : node) : bool :=
  match n with
  | File data => match data with Some _ => true | None => false end
  | Dir entries last_error =>
      match entries with [] => false | _ :: _ => true end
      && (last_error =? ERROR_NO_MORE_FILES)%Z
      && forallb (fun e : wstring * node =>
                    let (name, child) := e in
                    is_dot name child || readable child) entries
  end.

(** A listing of files that open (and of "." and ".."). *)
Definition flat (entries : list (wstring * node)) : bool :=
  forallb (fun e : wstring * node =>
             let (name, child) := e in
             is_dot name child
             || match child with File (Some _) => true | _ => false end)
          entries.

(** The entry is excluded: its path is not longer than [MAX_PATH] and a
    pattern matches that path. *)
Definition excluded {shlwapi : Shlwapi} (specs : list wstring)
           (szPath : wstring) (_ : node) : Prop :=
  length szPath <= MAX_PATH
  /\ exists spec, In spec specs /\ PathMatchSpec szPath spec = true.


(** The text of a path that goes into the hash, in the words of the
    specification: the raw text for a path longer than the ceiling,
    otherwise the canonical form, and the raw text again when the path
    cannot be canonicalized. *)
Definition folded_name {shlwapi : Shlwapi} (szPath : wstring) : wstring :=
  if length szPath <=? MAX_PATH then
    match PathCanonicalize szPath with
    | Some canonical => canonical
    | None => szPath
    end
  else szPath.

(** A digit, or a letter from A to F. *)
Definition upper_hex (c : wchar) : Prop :=
  (48 <= c <= 57 \/ 65 <= c <= 70)%N.

(** The algorithm of the run. *)
Definition selected (o : options) : Hash :=
  match pHash o with
  | Some h => h
  | None => Sha1
  end.

(** The path the walker is called with. *)
Definition root_path (n : node) (argv1 : wstring) : wstring :=
  match n with
  | Dir _ _ => strip_trailing argv1
  | File _ => argv1
  end.

(** The same world with another object at [argv[1]]. *)
Definition with_target (w : World) (n : node) : World :=
  {| target := Some n; can_append := can_append w |}.

Section Runs.
Context {shlwapi : Shlwapi}.

(** The state in which the walker starts. *)
Definition initial (o : options) (argv1 : wstring) : state :=
  {| hash_input := [];
     console := banner ++ using_line (selected o) argv1;
     visited := [] |}.

(** The call of the walker in [_tmain]. *)
Definition walk (o : options) (argv1 : wstring) (n : node) : DWORD * state :=
  HashTree (bIncludeNames o) (excludeSpecList o) n (root_path n argv1)
           (initial o argv1).
End Runs.

(** The directory part of the path of a child: [m_szPath] before
    [m_szPath += szName]. *)
Definition with_separator (szPath : wstring) : wstring :=
  let last := nth (length szPath - 1) szPath 0%N in
  let m1 := if N.eqb last slash then removelast szPath ++ [backslash] else szPath in
  if negb (N.eqb last backslash) then m1 ++ [backslash] else m1.

(** No NUL among the code units. *)
Definition no_NUL (sz : wstring) : bool :=
  forallb (fun c => negb (N.eqb c 0)) sz.

(** All names of a tree are C strings. *)
Fixpoint well_named (n : node) : bool :=
  match n with
  | File _ => true
  | Dir entries _ =>
      forallb (fun e : wstring * node =>
                 let (name, child) := e in
                 no_NUL name && well_named child) entries
  end.

(** No two entries of the directory at [szDirPath] are the same, and of
    two different entries one comes before the other: no two names are
    equal up to case. *)
Definition untied (szDirPath : wstring) (entries : list (wstring * node)) : Prop :=
  NoDup entries
  /\ forall e e',
      In e entries -> In e' entries ->
      e = e'
      \/ compare_nocase (child_path szDirPath (fst e) (snd e))
                        (child_path szDirPath (fst e') (snd e')) = true
      \/ compare_nocase (child_path szDirPath (fst e') (snd e'))
                        (child_path szDirPath (fst e) (snd e)) = true.

(** [reordered szDirPath t t']: [t'] is the tree [t], found at
    [szDirPath], with the entries of one of its directories, at any depth,
    listed in another order. *)
Inductive reordered : wstring -> node -> node -> Prop :=
| reordered_here szDirPath entries entries' last_error :
    Permutation entries entries' ->
    untied szDirPath entries ->
    reordered szDirPath (Dir entries last_error) (Dir entries' last_error)
| reordered_below szDirPath pre name child child' post last_error :
    reordered (child_path szDirPath name child) child child' ->
    reordered szDirPath (Dir (pre ++ (name, child) :: post) last_error)
              (Dir (pre ++ (name, child') :: post) last_error).

(** Of two different elements of [l] one comes before the other. *)
Definition comparable {A : Type} (comp : A -> A -> bool) (l : list A) : Prop :=
  forall x y, In x l -> In y l -> x = y \/ comp x y = true \/ comp y x = true.

(** The element of [dirContent] for an entry of the directory. *)
Definition item_of {shlwapi : Shlwapi} (bIncludeNames : bool)
           (excludeSpecList : list wstring) (szDirPath : wstring)
           (e : wstring * node) : item :=
  (mkCDirContent szDirPath (fst e) (is_dir (snd e)),
   HashTree bIncludeNames excludeSpecList (snd e)).

(** The error codes that the file system reports fit a [DWORD]. *)
Fixpoint dword_codes (n : node) : bool :=
  match n with
  | File _ => true
  | Dir entries last_error =>
      (0 <=? last_error)%Z && (last_error <? 2 ^ 32)%Z
      && forallb (fun e : wstring * node =>
                    let (name, child) := e in dword_codes child) entries
  end.

(** The value of a hexadecimal digit. *)
Definition hexval (c : wchar) : N :=
  (if c <? 58 then c - 48 else c - 55)%N.

(** The bytes that a text of hexadecimal digit pairs stands for. *)
Fixpoint unhex (text : wstring) : list byte :=
  match text with
  | high :: low :: text' => byte_of_N (16 * hexval high + hexval low) :: unhex text'
  | _ => []
  end.

(** The three messages of the walker. *)
Definition open_message (szFilePath : wstring) : wstring :=
  L "Failed to open file " ++ [quote] ++ szFilePath ++ [quote]
  ++ L " for reading" ++ [newline].

Definition first_message (szDirPath : wstring) (dwError : DWORD) : wstring :=
  L "FindFirstFile failed on " ++ [quote] ++ szDirPath ++ [quote]
  ++ L " with error 0x" ++ hex8 dwError ++ L "." ++ [newline].

Definition next_message (szDirPath : wstring) (dwError : DWORD) : wstring :=
  L "FindNextFile failed while listing " ++ [quote] ++ szDirPath ++ [quote]
  ++ L ". " ++ [newline] ++ L " Error 0x" ++ hex8 dwError ++ L "." ++ [newline].

(** [text] is the message for the failure [dwError] at [szPath]. *)
Definition failure_message (szPath : wstring) (dwError : DWORD)
           (text : wstring) : Prop :=
  (dwError = 4294967295%Z /\ text = open_message szPath)
  \/ text = first_message szPath dwError
  \/ text = next_message szPath dwError.

(** The system reports no failure with the code 0. *)
Fixpoint nonzero_codes (n : node) : bool :=
  match n with
  | File _ => true
  | Dir entries last_error =>
      negb (last_error =? 0)%Z
      && forallb (fun e : wstring * node =>
                    let (name, child) := e in
                    is_dot name child || nonzero_codes child) entries
  end.

(** [r] is the result, from the state [s], of a loop that visited the
    paths [more] one after the other: it printed nothing when it returns 0,
    and otherwise one message, for the path it visited last. *)
Definition loop_reports (s : state) (r : DWORD * state) : Prop :=
  exists more,
    visited (snd r) = visited s ++ more
    /\ (fst r = 0%Z -> console (snd r) = console s)
    /\ (fst r <> 0%Z ->
        more <> []
        /\ exists text,
            console (snd r) = console s ++ text
            /\ failure_message (last more []) (fst r) text).

(** The same for a call of the walker at [szPath], which is the first
    path it visits. *)
Definition reports (szPath : wstring) (s : state) (r : DWORD * state) : Prop :=
  exists more,
    visited (snd r) = visited s ++ szPath :: more
    /\ (fst r = 0%Z -> console (snd r) = console s)
    /\ (fst r <> 0%Z ->
        exists text,
          console (snd r) = console s ++ text
          /\ failure_message (last (szPath :: more) []) (fst r) text).

(** The history that a call adds to, whatever the state it starts from:
    [logs a e h] says that [a] returns [e] and that [h] lists the paths
    that [HashFile] and [HashDirectory] were called for meanwhile, in the
    order of the calls. *)
Definition logs (a : action) (e : DWORD) (h : list wstring) : Prop :=
  forall s, fst (a s) = e /\ visited (snd (a s)) = visited s ++ h.

(** [visits_in_order l e h]: the elements of [l] are visited one after the
    other in the order of [l], every visit begins with the call for the
    element's own path and is over (with all it visits below that path)
    before the next one begins, the first visit that fails is the last one
    and gives the code [e], and [h] is the history of all these calls. *)
Inductive visits_in_order : list item -> DWORD -> list wstring -> Prop :=
| visits_none : visits_in_order [] 0%Z []
| visits_next it l below e h :
    logs (visit it) 0%Z (GetPath (fst it) :: below) ->
    visits_in_order l e h ->
    visits_in_order (it :: l) e (GetPath (fst it) :: below ++ h)
| visits_stop it l below e :
    e <> 0%Z ->
    logs (visit it) e (GetPath (fst it) :: below) ->
    visits_in_order (it :: l) e (GetPath (fst it) :: below).

(** The children of a directory in the order of the claim: the entries
    other than "." and "..", files and directories alike, sorted by
    [compare_nocase] on their full paths. *)
Definition children_in_order {shlwapi : Shlwapi} (bIncludeNames : bool)
           (excludeSpecList : list wstring) (szDirPath : wstring)
           (entries : list (wstring * node)) : list item :=
  list_sort content_before
            (map (item_of bIncludeNames excludeSpecList szDirPath)
                 (filter (fun e => negb (is_dot (fst e) (snd e))) entries)).

(** The code units that a buffer of bytes holds when it is read as
    little-endian 16-bit [TCHAR]s: the converse of the cast to [LPBYTE]. *)
Fixpoint code_units (bytes : list byte) : wstring :=
  match bytes with
  | low :: high :: rest =>
      (Byte.to_N low + 256 * Byte.to_N high)%N :: code_units rest
  | _ => []
  end.

(** Strings of 16-bit code units, as [TCHAR] strings are. *)
Definition wide (sz : wstring) : Prop := Forall (fun c => (c < 65536)%N) sz.

(* ================================================================== *)
(** * An instance of the interfaces, to run the model *)
(* ================================================================== *)

Module Sample.

Definition towupper (c : wchar) : wchar :=
  (if (97 <=? c) && (c <=? 122) then c - 32 else c)%N.

(** Wildcard matching as the documentation of [PathMatchSpec] gives it:
    [*] stands for any run of characters, [?] for one character, letters
    match without regard to case, and the whole of the first string has
    to be matched. *)
Fixpoint mask_match (mask : wstring) : wstring -> bool :=
  match mask with
  | [] => fun name => match name with [] => true | _ :: _ => false end
  | m :: mask' =>
      if N.eqb m 42 then
        fix star (name : wstring) : bool :=
          mask_match mask' name
          || match name with [] => false | _ :: name' => star name' end
      else
        fun name =>
          match name with
          | [] => false
          | c :: name' =>
              (N.eqb m 63 || N.eqb (towupper m) (towupper c))
              && mask_match mask' name'
          end
  end.

Definition match_spec (pszFile pszSpec : wstring) : bool :=
  mask_match pszSpec pszFile.

Definition is_separator (c : wchar) : bool :=
  N.eqb c backslash || N.eqb c slash || N.eqb c 58.

(** [PathFindFileName]: what follows the last separator that is itself
    followed by the start of a name. *)
Fixpoint after_last_separator (path best : wstring) : wstring :=
  match path with
  | [] => best
  | c :: rest =>
      let starts_name :=
        match rest with
        | [] => false
        | d :: _ => negb (N.eqb d backslash || N.eqb d slash)
        end in
      after_last_separator rest
        (if is_separator c && starts_name then rest else best)
  end.

Definition find_file_name (path : wstring) : wstring :=
  after_last_separator path path.

(** The segments of a path between backslashes. *)
Fixpoint segments (path : wstring) (current : wstring) : list wstring :=
  match path with
  | [] => [current]
  | c :: rest =>
      if N.eqb c backslash then current :: segments rest []
      else segments rest (current ++ [c])
  end.

Definition resolve (done : list wstring) (segment : wstring) : list wstring :=
  if wstr_eqb segment (L ".") then done
  else if wstr_eqb segment (L "..") then removelast done
  else done ++ [segment].

Fixpoint join (segs : list wstring) : wstring :=
  match segs with
  | [] => []
  | [seg] => seg
  | seg :: segs' => seg ++ [backslash] ++ join segs'
  end.

(** [PathCanonicalize]: "." segments dropped, ".." segments resolved;
    the call fails on a path that does not fit, with its terminator, a
    buffer of [MAX_PATH] characters. *)
Definition canonicalize (path : wstring) : option wstring :=
  if MAX_PATH <=? length path then None
  else Some (join (fold_left resolve (segments path []) [])).

#[export] Instance shlwapi : Shlwapi := {|
  PathMatchSpec := match_spec;
  PathCanonicalize := canonicalize;
  PathFindFileName := find_file_name
|}.

(** A stand-in for the digests: the message cut or zero-padded to the
    digest size.  It keeps apart the short messages of the examples. *)
Definition padded (h : Hash) (m : list byte) : list byte :=
  map (fun i => nth i m x00) (seq 0 (GetHashSize h)).

#[export] Instance openssl : OpenSSL := {|
  digest := padded;
  digest_length := fun h m =>
    eq_trans (length_map (fun i => nth i m x00) (seq 0 (GetHashSize h)))
             (length_seq (GetHashSize h) 0)
|}.

(** A world where the target is [n] and every result file can be opened. *)
Definition world (n : node) : World :=
  {| target := Some n; can_append := fun _ => true |}.

(** The tree of the end-to-end scenario, listed by the file system with
    [sub] before [a.txt]. *)
Definition scenario : node :=
  directory [(L "sub", directory [(L "b.txt", file "world")]);
             (L "a.txt", file "hello")].

End Sample.

(* ================================================================== *)
(** * The comparison is a strict weak order *)
(* ================================================================== *)

Lemma wcsicmp_step (a b : wstring) :
  _wcsicmp a b =
  if negb (N.eqb (head_lower a) 0) && N.eqb (head_lower a) (head_lower b)
  then _wcsicmp (tl a) (tl b)
  else (Z.of_N (head_lower a) - Z.of_N (head_lower b))%Z.
Proof.
  destruct a as [|c a']; reflexivity.
Qed.

Lemma wcsicmp_nil_l (b : wstring) : (_wcsicmp [] b <= 0)%Z.
Proof.
  simpl. lia.
Qed.

Lemma wcsicmp_opp (a b : wstring) : _wcsicmp b a = (- _wcsicmp a b)%Z.
Proof.
  revert b. induction a as [|c a IH]; intros b.
  - rewrite (wcsicmp_step b []), (wcsicmp_step [] b).
    change (head_lower []) with 0%N.
    destruct (N.eqb_spec (head_lower b) 0) as [E|E]; simpl.
    + rewrite E. reflexivity.
    + destruct (N.eqb_spec (head_lower b) 0); [contradiction|]. simpl. lia.
  - rewrite (wcsicmp_step b (c :: a)), (wcsicmp_step (c :: a) b).
    destruct (N.eqb_spec (head_lower b) (head_lower (c :: a))) as [E|E].
    + rewrite E, N.eqb_refl.
      destruct (N.eqb_spec (head_lower (c :: a)) 0); simpl; [lia|].
      apply IH.
    + destruct (N.eqb_spec (head_lower (c :: a)) (head_lower b));
        [congruence|].
      rewrite !andb_false_r. lia.
Qed.

Lemma wcsicmp_trans (a b c : wstring) :
  (_wcsicmp a b <= 0)%Z -> (_wcsicmp b c <= 0)%Z -> (_wcsicmp a c <= 0)%Z.
Proof.
  revert b c. induction a as [|x a IH]; intros b c Hab Hbc.
  - apply wcsicmp_nil_l.
  - rewrite wcsicmp_step in Hab, Hbc |- *.
    destruct (N.eqb_spec (head_lower (x :: a)) 0) as [Za|Za];
      destruct (N.eqb_spec (head_lower (x :: a)) (head_lower b)) as [Eab|Eab];
      destruct (N.eqb_spec (head_lower b) 0) as [Zb|Zb];
      destruct (N.eqb_spec (head_lower b) (head_lower c)) as [Ebc|Ebc];
      destruct (N.eqb_spec (head_lower (x :: a)) (head_lower c)) as [Eac|Eac];
      simpl in *; try lia.
    eapply IH; eassumption.
Qed.

Lemma compare_nocase_asym (a b : wstring) :
  compare_nocase a b = true -> compare_nocase b a = false.
Proof.
  unfold compare_nocase. rewrite (wcsicmp_opp a b). lia.
Qed.

Lemma compare_nocase_trans (a b c : wstring) :
  compare_nocase b a = false -> compare_nocase c b = false ->
  compare_nocase c a = false.
Proof.
  unfold compare_nocase. intros H1 H2.
  apply Z.ltb_ge. apply Z.ltb_ge in H1, H2.
  rewrite (wcsicmp_opp a c). rewrite (wcsicmp_opp a b) in H1.
  rewrite (wcsicmp_opp b c) in H2.
  pose proof (wcsicmp_trans a b c). lia.
Qed.

(* ================================================================== *)
(** * The sort *)
(* ================================================================== *)

Section SortFacts.
Context {A : Type} (comp : A -> A -> bool).

Lemma sort_insert_perm (x : A) (l : list A) :
  Permutation (x :: l) (sort_insert comp x l).
Proof.
  induction l as [|y l IH]; simpl.
  - reflexivity.
  - destruct (comp y x).
    + rewrite perm_swap. apply perm_skip, IH.
    + reflexivity.
Qed.

Lemma list_sort_perm (l : list A) : Permutation l (list_sort comp l).
Proof.
  induction l as [|x l IH]; simpl.
  - reflexivity.
  - rewrite <- sort_insert_perm. apply perm_skip, IH.
Qed.

Lemma sort_insert_split (x : A) (l : list A) :
  exists l1 l2, l = l1 ++ l2 /\ sort_insert comp x l = l1 ++ x :: l2.
Proof.
  induction l as [|y l (l1 & l2 & E1 & E2)]; simpl.
  - exists [], []. split; reflexivity.
  - destruct (comp y x).
    + exists (y :: l1), l2. rewrite E2. split; [now rewrite E1|reflexivity].
    + exists [], (y :: l). split; reflexivity.
Qed.

Hypothesis comp_asym : forall a b, comp a b = true -> comp b a = false.
Hypothesis comp_trans :
  forall a b c, comp b a = false -> comp c b = false -> comp c a = false.

Lemma sort_insert_sorted (x : A) (l : list A) :
  Sorted (not_after comp) l -> Sorted (not_after comp) (sort_insert comp x l).
Proof.
  induction l as [|y l IH]; simpl; intros Hs.
  - repeat constructor.
  - destruct (comp y x) eqn:Hyx.
    + inversion Hs as [|? ? Hl Hhd]; subst.
      constructor; [apply IH, Hl|].
      destruct l as [|z l]; simpl.
      * constructor. apply comp_asym, Hyx.
      * destruct (comp z x); constructor.
        -- now inversion Hhd.
        -- apply comp_asym, Hyx.
    + constructor; [assumption|]. constructor. exact Hyx.
Qed.

Lemma list_sort_sorted (l : list A) : Sorted (not_after comp) (list_sort comp l).
Proof.
  induction l as [|x l IH]; simpl.
  - constructor.
  - apply sort_insert_sorted, IH.
Qed.

Lemma list_sort_strongly_sorted (l : list A) :
  StronglySorted (not_after comp) (list_sort comp l).
Proof.
  apply Sorted_StronglySorted.
  - intros a b c Hab Hbc. unfold not_after in *. eauto.
  - apply list_sort_sorted.
Qed.

(** Inserting into a sorted list does not depend on an element [x] of
    the list: with or without [x], the new element ends at the same
    place among the others.  This is where stability matters. *)
Lemma sort_insert_apart (y x : A) (l1 l2 : list A) :
  Sorted (not_after comp) (l1 ++ x :: l2) ->
  exists l1' l2',
    sort_insert comp y (l1 ++ x :: l2) = l1' ++ x :: l2'
    /\ sort_insert comp y (l1 ++ l2) = l1' ++ l2'.
Proof.
  induction l1 as [|a l1 IH]; simpl; intros Hs.
  - destruct (comp x y) eqn:Hxy.
    + exists [], (sort_insert comp y l2). split; reflexivity.
    + exists [y], l2. split; [reflexivity|].
      destruct l2 as [|b l2]; [reflexivity|]. simpl.
      inversion Hs as [|? ? _ Hhd]; subst. inversion Hhd; subst.
      unfold not_after in *.
      now rewrite (comp_trans y x b).
  - inversion Hs as [|? ? Hl _]; subst.
    destruct (comp a y).
    + destruct (IH Hl) as (l1' & l2' & E1 & E2).
      exists (a :: l1'), l2'. simpl. now rewrite E1, E2.
    + exists (y :: a :: l1), l2. split; reflexivity.
Qed.

Lemma list_sort_apart (pre post : list A) (x : A) :
  exists l1 l2,
    list_sort comp (pre ++ x :: post) = l1 ++ x :: l2
    /\ list_sort comp (pre ++ post) = l1 ++ l2.
Proof.
  induction pre as [|y pre (l1 & l2 & E1 & E2)]; simpl.
  - destruct (sort_insert_split x (list_sort comp post)) as (l1 & l2 & E1 & E2).
    exists l1, l2. split; assumption.
  - rewrite E1, E2. apply sort_insert_apart.
    rewrite <- E1. apply list_sort_sorted.
Qed.
End SortFacts.

Lemma content_before_asym (a b : CDirContent * (wstring -> action)) :
  content_before a b = true -> content_before b a = false.
Proof.
  apply compare_nocase_asym.
Qed.

Lemma content_before_trans (a b c : CDirContent * (wstring -> action)) :
  content_before b a = false -> content_before c b = false ->
  content_before c a = false.
Proof.
  apply compare_nocase_trans.
Qed.

(** Two lists whose elements correspond, sorted with comparisons that
    agree on corresponding elements, still correspond. *)
Section SortTogether.
Context {A B : Type} (compA : A -> A -> bool) (compB : B -> B -> bool).
Variable R : A -> B -> Prop.
Hypothesis comp_agree :
  forall a b c d, R a b -> R c d -> compA a c = compB b d.

Lemma sort_insert_together a b l l' :
  R a b -> Forall2 R l l' ->
  Forall2 R (sort_insert compA a l) (sort_insert compB b l').
Proof.
  intros Hab Hl. induction Hl as [|c d l l' Hcd Hl IH]; simpl.
  - repeat constructor. exact Hab.
  - rewrite (comp_agree c d a b Hcd Hab).
    destruct (compB d b); repeat constructor; assumption.
Qed.

Lemma list_sort_together l l' :
  Forall2 R l l' -> Forall2 R (list_sort compA l) (list_sort compB l').
Proof.
  induction 1; simpl.
  - constructor.
  - apply sort_insert_together; assumption.
Qed.
End SortTogether.

(* ================================================================== *)
(** * Induction on the file system *)
(* ================================================================== *)

Section NodeInduction.
Variable P : node -> Prop.
Hypothesis P_File : forall data, P (File data).
Hypothesis P_Dir :
  forall entries last_error,
    Forall (fun e => P (snd e)) entries -> P (Dir entries last_error).

Fixpoint node_ind (n : node) : P n :=
  match n with
  | File data => P_File data
  | Dir entries last_error =>
      P_Dir entries last_error
        ((fix all (es : list (wstring * node)) : Forall (fun e => P (snd e)) es :=
            match es with
            | [] => Forall_nil _
            | e :: es' => Forall_cons e (node_ind (snd e)) (all es')
            end) entries)
  end.
End NodeInduction.

(* ================================================================== *)
(** * What an action does to the hash *)
(* ================================================================== *)

Lemma appends_unique a e bytes e' bytes' :
  appends a e bytes -> appends a e' bytes' -> e = e' /\ bytes = bytes'.
Proof.
  intros H H'.
  pose (s := {| hash_input := []; console := []; visited := [] |}).
  destruct (H s) as [E1 E2], (H' s) as [E1' E2'].
  split; [congruence|]. rewrite E2 in E2'. simpl in E2'. exact E2'.
Qed.

Lemma buffer_not_empty : 0 < BUFFER_SIZE.
Proof.
  unfold BUFFER_SIZE. lia.
Qed.

Lemma fread_loop_enough (fuel : nat) (unread : list byte) (s : state) :
  length unread < fuel ->
  fread_loop fuel unread s =
  {| hash_input := hash_input s ++ unread;
     console := console s;
     visited := visited s |}.
Proof.
  pose proof buffer_not_empty as Hpos.
  revert unread s. induction fuel as [|fuel IH]; intros unread s Hlen.
  - lia.
  - cbn [fread_loop].
    destruct (firstn BUFFER_SIZE unread) as [|b chunk] eqn:Hchunk.
    + assert (unread = []) as ->.
      { destruct unread as [|b u]; [reflexivity|].
        destruct BUFFER_SIZE; [lia|discriminate]. }
      rewrite app_nil_r. destruct s; reflexivity.
    + rewrite IH.
      * simpl. rewrite <- app_assoc, <- Hchunk, firstn_skipn. reflexivity.
      * rewrite length_skipn. destruct unread as [|b' u]; [discriminate|].
        simpl in *. lia.
Qed.

Lemma read_file_all (bytes : list byte) (s : state) :
  read_file bytes s =
  {| hash_input := hash_input s ++ bytes;
     console := console s;
     visited := visited s |}.
Proof.
  unfold read_file. apply fread_loop_enough. lia.
Qed.

Section WalkerFacts.
Context {shlwapi : Shlwapi}.
Variable bIncludeNames : bool.
Variable excludeSpecList : list wstring.

#[local] Abbreviation HashFile' := (HashFile bIncludeNames excludeSpecList).
#[local] Abbreviation HashDirectory' := (HashDirectory bIncludeNames excludeSpecList).
#[local] Abbreviation HashTree' := (HashTree bIncludeNames excludeSpecList).
#[local] Abbreviation hash_name' := (hash_name bIncludeNames).
#[local] Abbreviation skipped' := (skipped excludeSpecList).

Lemma hash_name_appends (szPath : wstring) (s : state) :
  hash_name' szPath s =
  {| hash_input := hash_input s ++ name_bytes bIncludeNames szPath;
     console := console s;
     visited := visited s |}.
Proof.
  unfold hash_name, name_bytes.
  destruct bIncludeNames.
  - destruct (MAX_PATH <? length szPath); reflexivity.
  - rewrite app_nil_r. destruct s; reflexivity.
Qed.

Lemma HashFile_appends szFilePath data :
  appends (HashFile' szFilePath data)
          (fst (file_effect bIncludeNames excludeSpecList szFilePath data))
          (snd (file_effect bIncludeNames excludeSpecList szFilePath data)).
Proof.
  intros s. unfold HashFile, file_effect.
  destruct (skipped' szFilePath).
  - simpl. now rewrite app_nil_r.
  - rewrite hash_name_appends. destruct data as [bytes|]; simpl.
    + rewrite read_file_all. simpl. now rewrite app_assoc.
    + auto.
Qed.

Lemma visit_all_nil : appends (visit_all []) 0%Z [].
Proof.
  intros s. simpl. now rewrite app_nil_r.
Qed.

Lemma visit_all_cons it content e bytes e' bytes' :
  appends (visit it) e bytes ->
  appends (visit_all content) e' bytes' ->
  appends (visit_all (it :: content))
          (if (e =? 0)%Z then e' else e)
          (if (e =? 0)%Z then bytes ++ bytes' else bytes).
Proof.
  intros Hit Hrest s. simpl.
  destruct (Hit s) as [E1 E2]. unfold visit in E1, E2.
  destruct (snd it (GetPath (fst it)) s) as [dwError s1]. simpl in E1, E2.
  subst dwError.
  destruct (e =? 0)%Z; simpl.
  - destruct (Hrest s1) as [E3 E4]. split; [exact E3|].
    rewrite E4, E2. now rewrite app_assoc.
  - auto.
Qed.

Lemma visit_all_alike (l l' : list item) :
  Forall2 (fun it it' => alike (visit it) (visit it')) l l' ->
  alike (visit_all l) (visit_all l').
Proof.
  induction 1 as [|it it' l l' (e & b & Ha & Ha') _ (e2 & b2 & IH & IH')].
  - exists 0%Z, []. split; apply visit_all_nil.
  - eexists _, _. split; eapply visit_all_cons; eassumption.
Qed.

(** An element that returns 0 and hashes nothing can be taken out of the
    list. *)
Lemma visit_all_without (l1 l2 : list item) (x : item) :
  appends (visit x) 0%Z [] ->
  Forall (fun it => alike (visit it) (visit it)) (l1 ++ l2) ->
  alike (visit_all (l1 ++ x :: l2)) (visit_all (l1 ++ l2)).
Proof.
  intros Hx. induction l1 as [|a l1 IH]; simpl; intros Hall.
  - destruct (visit_all_alike l2 l2) as (e & b & Hl & _).
    { clear -Hall. induction Hall; constructor; auto. }
    exists e, b. split; [|exact Hl].
    exact (visit_all_cons x l2 _ _ _ _ Hx Hl).
  - inversion Hall as [|? ? (e & b & Ha & _) Hall']; subst.
    destruct (IH Hall') as (e2 & b2 & H1 & H2).
    eexists _, _. split; eapply visit_all_cons; eassumption.
Qed.
End WalkerFacts.

Section DirectoryFacts.
Context {shlwapi : Shlwapi}.
Variable bIncludeNames : bool.
Variable excludeSpecList : list wstring.

#[local] Abbreviation HashDirectory' := (HashDirectory bIncludeNames excludeSpecList).
#[local] Abbreviation HashTree' := (HashTree bIncludeNames excludeSpecList).
#[local] Abbreviation skipped' := (skipped excludeSpecList).
#[local] Abbreviation found_of' := (found_of bIncludeNames excludeSpecList).

Lemma HashDirectory_appends szDirPath ffds last_error e bytes :
  appends (visit_all (sorted_content szDirPath ffds)) e bytes ->
  appends (HashDirectory' szDirPath ffds last_error)
          (fst (directory_effect bIncludeNames excludeSpecList szDirPath ffds last_error e bytes))
          (snd (directory_effect bIncludeNames excludeSpecList szDirPath ffds last_error e bytes)).
Proof.
  intros Hloop s. unfold HashDirectory, directory_effect.
  destruct (skipped' szDirPath).
  - simpl. now rewrite app_nil_r.
  - rewrite hash_name_appends. destruct ffds as [|ffd ffds]; [simpl; auto|].
    destruct (negb (last_error =? ERROR_NO_MORE_FILES)%Z); [simpl; auto|].
    match goal with |- context [visit_all ?l ?st] =>
      destruct (Hloop st) as [E1 E2] end.
    unfold sorted_content in E1, E2. split; [exact E1|].
    rewrite E2. simpl. now rewrite app_assoc.
Qed.

Lemma list_content_alike szDirPath ffds ffds' :
  Forall2 (found_alike szDirPath) ffds ffds' ->
  Forall2 item_alike (list_content szDirPath ffds)
          (list_content szDirPath ffds').
Proof.
  induction 1 as [|f f' l l' (En & Ed & Eh) _ IH]; simpl.
  - constructor.
  - rewrite <- En, <- Ed.
    destruct (isDirectory f);
      [destruct (negb (wstr_eqb (cFileName f) (L "."))
                 && negb (wstr_eqb (cFileName f) (L "..")))|];
      try assumption; constructor; try assumption; split; auto.
Qed.

Lemma sorted_content_alike szDirPath ffds ffds' :
  Forall2 (found_alike szDirPath) ffds ffds' ->
  Forall2 item_alike (sorted_content szDirPath ffds)
          (sorted_content szDirPath ffds').
Proof.
  intros H. unfold sorted_content.
  apply list_sort_together; [|apply list_content_alike, H].
  intros a b c d [Eab _] [Ecd _]. unfold content_before. now rewrite Eab, Ecd.
Qed.

Lemma item_alike_visit (l l' : list item) :
  Forall2 item_alike l l' ->
  Forall2 (fun it it' => alike (visit it) (visit it')) l l'.
Proof.
  induction 1 as [|it it' l l' [E H] _ IH]; constructor; assumption.
Qed.

Lemma HashDirectory_alike szDirPath ffds ffds' last_error :
  Forall2 (found_alike szDirPath) ffds ffds' ->
  alike (HashDirectory' szDirPath ffds last_error)
        (HashDirectory' szDirPath ffds' last_error).
Proof.
  intros H.
  destruct (visit_all_alike _ _ (item_alike_visit _ _
              (sorted_content_alike szDirPath _ _ H))) as (e & b & H1 & H2).
  exists (fst (directory_effect bIncludeNames excludeSpecList szDirPath ffds last_error e b)),
         (snd (directory_effect bIncludeNames excludeSpecList szDirPath ffds last_error e b)).
  split; [apply HashDirectory_appends, H1|].
  replace (directory_effect bIncludeNames excludeSpecList szDirPath ffds last_error e b)
    with (directory_effect bIncludeNames excludeSpecList szDirPath ffds' last_error e b).
  - apply HashDirectory_appends, H2.
  - unfold directory_effect. destruct H; reflexivity.
Qed.

Lemma HashTree_Dir entries last_error szPath :
  HashTree' (Dir entries last_error) szPath
  = HashDirectory' szPath (map found_of' entries) last_error.
Proof.
  reflexivity.
Qed.

(** What the walker does to the hash does not depend on the state it
    starts from. *)
Lemma HashTree_alike (n : node) :
  forall szPath, alike (HashTree' n szPath) (HashTree' n szPath).
Proof.
  induction n as [data|entries last_error IH] using node_ind; intros szPath.
  - eexists _, _. split; apply HashFile_appends.
  - rewrite HashTree_Dir. apply HashDirectory_alike.
    induction IH as [|[name child] es Hc _ IHes]; simpl; constructor.
    + repeat split. apply Hc.
    + exact IHes.
Qed.

Lemma found_of_alike szDirPath (e : wstring * node) :
  found_alike szDirPath (found_of' e) (found_of' e).
Proof.
  destruct e as [name child]. repeat split. apply HashTree_alike.
Qed.

Lemma found_of_all_alike szDirPath (entries : list (wstring * node)) :
  Forall2 (found_alike szDirPath) (map found_of' entries) (map found_of' entries).
Proof.
  induction entries; constructor; [apply found_of_alike|assumption].
Qed.

Lemma sorted_content_self szDirPath (entries : list (wstring * node)) :
  Forall (fun it => alike (visit it) (visit it))
         (sorted_content szDirPath (map found_of' entries)).
Proof.
  pose proof (item_alike_visit _ _
                (sorted_content_alike szDirPath _ _
                   (found_of_all_alike szDirPath entries))) as H.
  remember (sorted_content szDirPath (map found_of' entries)) as l eqn:El.
  clear El. induction l as [|a l IHl]; [constructor|].
  inversion H as [|? ? ? ? Ha Hl]; subst.
  constructor; [exact Ha|]. apply IHl, Hl.
Qed.
End DirectoryFacts.

(* ================================================================== *)
(** * Trees that differ by one entry *)
(* ================================================================== *)

Section Removal.
Context {shlwapi : Shlwapi}.
Variable bIncludeNames : bool.
Variable excludeSpecList : list wstring.
Variable P : wstring -> node -> Prop.

#[local] Abbreviation HashDirectory' := (HashDirectory bIncludeNames excludeSpecList).
#[local] Abbreviation HashTree' := (HashTree bIncludeNames excludeSpecList).
#[local] Abbreviation found_of' := (found_of bIncludeNames excludeSpecList).

Hypothesis P_nothing :
  forall szPath n, P szPath n -> appends (HashTree' n szPath) 0%Z [].

Lemma list_content_app szDirPath (l1 l2 : list found) :
  list_content szDirPath (l1 ++ l2)
  = list_content szDirPath l1 ++ list_content szDirPath l2.
Proof.
  induction l1 as [|f l1 IH]; simpl; [reflexivity|].
  destruct (isDirectory f);
    [destruct (negb (wstr_eqb (cFileName f) (L "."))
               && negb (wstr_eqb (cFileName f) (L "..")))|];
    simpl; now rewrite IH.
Qed.

Lemma removed_is_dir szDirPath t t' :
  removed P szDirPath t t' -> is_dir t = true /\ is_dir t' = true.
Proof.
  destruct 1; split; reflexivity.
Qed.

Lemma removed_here_alike szDirPath pre name child post last_error :
  pre ++ post <> [] ->
  P (child_path szDirPath name child) child ->
  alike (HashTree' (Dir (pre ++ (name, child) :: post) last_error) szDirPath)
        (HashTree' (Dir (pre ++ post) last_error) szDirPath).
Proof.
  intros Hrest HP. rewrite !HashTree_Dir.
  assert (exists e b,
             appends (visit_all (sorted_content szDirPath
                        (map found_of' (pre ++ (name, child) :: post)))) e b
             /\ appends (visit_all (sorted_content szDirPath
                        (map found_of' (pre ++ post)))) e b)
    as (e & b & H1 & H2).
  { pose proof (sorted_content_self bIncludeNames excludeSpecList szDirPath
                  (pre ++ post)) as Hself.
    unfold sorted_content in *.
    rewrite !map_app, !list_content_app in *. rewrite map_cons.
    change (found_of' (name, child) :: map found_of' post)
      with ([found_of' (name, child)] ++ map found_of' post).
    rewrite list_content_app.
    destruct (list_content szDirPath [found_of' (name, child)])
      as [|x [|y l]] eqn:Ex.
    - simpl. apply visit_all_alike.
      clear -Hself. induction Hself; constructor; auto.
    - simpl.
      destruct (list_sort_apart content_before
                  content_before_asym content_before_trans
                  (list_content szDirPath (map found_of' pre))
                  (list_content szDirPath (map found_of' post)) x)
        as (l1 & l2 & E1 & E2).
      rewrite E1, E2. rewrite E2 in Hself.
      apply visit_all_without; [|exact Hself].
      assert (x = (mkCDirContent szDirPath name (is_dir child), HashTree' child))
        as ->.
      { simpl in Ex.
        destruct (is_dir child);
          [destruct (negb (wstr_eqb name (L "."))
                     && negb (wstr_eqb name (L "..")))|];
          congruence. }
      apply P_nothing, HP.
    - exfalso. simpl in Ex.
      destruct (is_dir child);
        [destruct (negb (wstr_eqb name (L "."))
                   && negb (wstr_eqb name (L "..")))|];
        discriminate. }
  eexists _, _. split; [apply HashDirectory_appends, H1|].
  replace (directory_effect bIncludeNames excludeSpecList szDirPath
             (map found_of' (pre ++ (name, child) :: post)) last_error e b)
    with (directory_effect bIncludeNames excludeSpecList szDirPath
             (map found_of' (pre ++ post)) last_error e b).
  - apply HashDirectory_appends, H2.
  - unfold directory_effect.
    destruct (pre ++ post) as [|p l] eqn:E; [contradiction|].
    destruct pre; reflexivity.
Qed.

(** Removing such an entry changes neither the code returned nor the
    bytes hashed. *)
Lemma removed_alike szDirPath t t' :
  removed P szDirPath t t' ->
  alike (HashTree' t szDirPath) (HashTree' t' szDirPath).
Proof.
  induction 1 as [szDirPath pre name child post last_error Hrest HP
                 |szDirPath pre name child child' post last_error Hrem IH].
  - apply removed_here_alike; assumption.
  - rewrite !HashTree_Dir. apply HashDirectory_alike.
    rewrite !map_app. apply Forall2_app; [apply found_of_all_alike|].
    simpl. constructor; [|apply found_of_all_alike].
    destruct (removed_is_dir _ _ _ Hrem) as [E1 E2].
    repeat split; simpl; [congruence|exact IH].
Qed.
End Removal.

(* ================================================================== *)
(** * The content of a tree, in the order of the traversal *)
(* ================================================================== *)

Section PlainContent.
Context {shlwapi : Shlwapi}.

#[local] Abbreviation HashTree0 := (HashTree false []).

Lemma skipped_nil (szPath : wstring) : skipped [] szPath = false.
Proof.
  unfold skipped. simpl. now rewrite andb_false_r.
Qed.

Lemma visit_all_concat (l : list item) (l' : list (wstring * list byte)) :
  Forall2 (fun it sp => GetPath (fst it) = fst sp
                        /\ appends (visit it) 0%Z (snd sp)) l l' ->
  appends (visit_all l) 0%Z (concat (map snd l')).
Proof.
  induction 1 as [|it sp l l' [_ Hit] _ IH]; simpl concat.
  - apply visit_all_nil.
  - exact (visit_all_cons it l _ _ _ _ Hit IH).
Qed.

(** With no names and no exclusion the walker hashes the files of a
    readable tree in order, and nothing else. *)
Lemma HashTree_files_in_order (n : node) :
  forall szPath,
    readable n = true ->
    appends (HashTree0 n szPath) 0%Z (files_in_order n szPath).
Proof.
  induction n as [data|entries last_error IH] using node_ind;
    intros szPath Hr.
  - destruct data as [bytes|]; [|discriminate].
    pose proof (HashFile_appends false [] szPath (Some bytes)) as H.
    unfold file_effect in H. rewrite skipped_nil in H. exact H.
  - simpl in Hr. apply andb_prop in Hr as [Hr Hall].
    apply andb_prop in Hr as [Hne Hle].
    rewrite HashTree_Dir.
    assert (appends
              (visit_all (sorted_content szPath
                 (map (found_of false []) entries)))
              0%Z (files_in_order (Dir entries last_error) szPath)) as Hloop.
    { simpl files_in_order. apply visit_all_concat.
      unfold sorted_content.
      apply list_sort_together.
      - intros a b c d [Eab _] [Ecd _]. unfold content_before.
        now rewrite Eab, Ecd.
      - clear Hne. induction IH as [|[name child] es Hc _ IHes]; simpl.
        + constructor.
        + simpl in Hall. apply andb_prop in Hall as [Hhere Hall].
          specialize (IHes Hall). unfold is_dot in *.
          destruct (is_dir child) eqn:Ed; simpl in *.
          * destruct (wstr_eqb name (L ".")); simpl; [exact IHes|].
            destruct (wstr_eqb name (L "..")); simpl; [exact IHes|].
            constructor; [|exact IHes]. split.
            -- unfold child_path. now rewrite Ed.
            -- unfold visit, child_path. simpl. apply Hc, Hhere.
          * constructor; [|exact IHes]. split.
            -- unfold child_path. now rewrite Ed.
            -- unfold visit, child_path. simpl. apply Hc, Hhere. }
    pose proof (HashDirectory_appends false [] szPath _ last_error _ _ Hloop) as H.
    unfold directory_effect in H. rewrite skipped_nil in H.
    destruct entries as [|e es]; [discriminate|].
    cbn [map negb] in H. rewrite Hle in H. exact H.
Qed.
End PlainContent.

(* ================================================================== *)
(** * Exclusion *)
(* ================================================================== *)

Section Exclusion.
Context {shlwapi : Shlwapi}.

Lemma IsExcludedName_exists (szName : wstring) (specs : list wstring) :
  IsExcludedName szName specs = true
  <-> exists spec, In spec specs /\ PathMatchSpec szName spec = true.
Proof.
  induction specs as [|spec specs IH]; simpl.
  - split; [discriminate|]. intros (? & [] & _).
  - destruct (PathMatchSpec szName spec) eqn:E.
    + split; [|reflexivity]. intros _. exists spec. auto.
    + rewrite IH. split.
      * intros (sp & Hin & Hm). exists sp. auto.
      * intros (sp & [<-|Hin] & Hm); [congruence|]. exists sp. auto.
Qed.

Lemma skipped_iff (specs : list wstring) (szPath : wstring) :
  skipped specs szPath = true
  <-> length szPath <= MAX_PATH
      /\ exists spec, In spec specs /\ PathMatchSpec szPath spec = true.
Proof.
  unfold skipped. rewrite !andb_true_iff, Nat.leb_le, IsExcludedName_exists.
  split.
  - intros [[Hlen _] Hm]. auto.
  - intros [Hlen (spec & Hin & Hm)]. repeat split; eauto.
    destruct specs; [destruct Hin|reflexivity].
Qed.

Lemma HashFile_skipped inc specs szPath data s :
  skipped specs szPath = true ->
  HashFile inc specs szPath data s = (0%Z, enter szPath s).
Proof.
  intros H. unfold HashFile. now rewrite H.
Qed.

Lemma HashDirectory_skipped inc specs szPath ffds last_error s :
  skipped specs szPath = true ->
  HashDirectory inc specs szPath ffds last_error s = (0%Z, enter szPath s).
Proof.
  intros H. unfold HashDirectory. now rewrite H.
Qed.

Lemma HashTree_skipped inc specs n szPath s :
  skipped specs szPath = true ->
  HashTree inc specs n szPath s = (0%Z, enter szPath s).
Proof.
  destruct n; [apply HashFile_skipped|apply HashDirectory_skipped].
Qed.

Lemma HashFile_not_skipped inc specs szPath data s :
  skipped specs szPath = false ->
  HashFile inc specs szPath data s = HashFile inc [] szPath data s.
Proof.
  intros H. unfold HashFile. now rewrite H, skipped_nil.
Qed.

Lemma HashDirectory_not_skipped inc specs szPath ffds last_error s :
  skipped specs szPath = false ->
  HashDirectory inc specs szPath ffds last_error s
  = HashDirectory inc [] szPath ffds last_error s.
Proof.
  intros H. unfold HashDirectory. now rewrite H, skipped_nil.
Qed.
End Exclusion.

(** C1 (as the spec states it, refuted).  The claim: an entry is excluded
    iff a pattern matches its base name.  With the pattern [sub] the
    directory [C:\t\sub] has a matching base name, its path is short and
    the pattern set is not empty, and yet the program does not exclude it:
    [HashFile] and [HashDirectory] go on for that path, and the run
    [DirHash.exe C:\t -exclude sub] on the tree a.txt = hello,
    sub\b.txt = world hashes helloworld, not hello. *)
Lemma C1_base_name_is_not_what_is_matched :
  let shlwapi := Sample.shlwapi in
  let openssl := Sample.openssl in
  let szPath := L "C:\t\sub" in
  let specs := [L "sub"] in
  length szPath <= MAX_PATH
  /\ specs <> []
  /\ (exists spec, In spec specs
                   /\ PathMatchSpec (PathFindFileName szPath) spec = true)
  /\ skipped specs szPath = false
  /\ hash_input (snd (HashFile false specs szPath (Some (bytes_of "world")) fresh))
     = bytes_of "world"
  /\ fst (HashDirectory false specs szPath [] 5%Z fresh) = 5%Z
  /\ option_map hash_input
       (walked (_tmain (Sample.world Sample.scenario)
                       [L "DirHash.exe"; L "C:\t"; L "-exclude"; L "sub"]))
     = Some (bytes_of "helloworld").
Proof.
  cbv zeta. split; [unfold MAX_PATH; simpl; lia|].
  split; [discriminate|].
  split; [exists (L "sub"); split; [left; reflexivity|reflexivity]|].
  repeat split; reflexivity.
Qed.

(** C1 (amended).  For an entry whose path is not longer than [MAX_PATH]
    and a non-empty pattern set, the entry is excluded iff at least one
    pattern matches the full path the function was called with (the string
    handed to [PathMatchSpec]): then [HashFile] and [HashDirectory] return 0
    at once; otherwise they behave as with an empty pattern set. *)
Theorem C1_exclusion_matches_full_path
        {shlwapi : Shlwapi} (specs : list wstring) (szPath : wstring)
        (Hlen : length szPath <= MAX_PATH) (Hspecs : specs <> []) :
  (skipped specs szPath = true
   <-> exists spec, In spec specs /\ PathMatchSpec szPath spec = true)
  /\ (forall inc data s,
         HashFile inc specs szPath data s
         = if skipped specs szPath then (0%Z, enter szPath s)
           else HashFile inc [] szPath data s)
  /\ (forall inc ffds last_error s,
         HashDirectory inc specs szPath ffds last_error s
         = if skipped specs szPath then (0%Z, enter szPath s)
           else HashDirectory inc [] szPath ffds last_error s).
Proof.
  split; [|split].
  - rewrite skipped_iff. tauto.
  - intros. destruct (skipped specs szPath) eqn:E.
    + now apply HashFile_skipped.
    + now apply HashFile_not_skipped.
  - intros. destruct (skipped specs szPath) eqn:E.
    + now apply HashDirectory_skipped.
    + now apply HashDirectory_not_skipped.
Qed.

Lemma C1_exclusion_matches_full_path_witness :
  let shlwapi := Sample.shlwapi in
  skipped [L "*.tmp"] (L "C:\t\notes.tmp") = true
  <-> exists spec, In spec [L "*.tmp"]
                   /\ PathMatchSpec (L "C:\t\notes.tmp") spec = true.
Proof.
  intros shlwapi.
  apply (C1_exclusion_matches_full_path [L "*.tmp"] (L "C:\t\notes.tmp")).
  - unfold MAX_PATH. simpl. lia.
  - discriminate.
Defined.

(* ================================================================== *)
(** * The order of the visits *)
(* ================================================================== *)

Lemma towlower_not_NUL (c : wchar) : c <> 0%N -> towlower c <> 0%N.
Proof.
  unfold towlower. destruct ((65 <=? c)%N && (c <=? 90)%N); lia.
Qed.

Lemma compare_nocase_lexicographic (a b : wstring) :
  c_string a -> c_string b -> compare_nocase a b = nocase_before a b.
Proof.
  unfold compare_nocase, nocase_before, c_string.
  revert b. induction a as [|x a IH]; intros [|y b] Ha Hb; simpl.
  - reflexivity.
  - inversion Hb as [|? ? Hy _]; subst. apply towlower_not_NUL in Hy.
    apply Z.ltb_lt. lia.
  - change (towlower 0%N) with 0%N.
    destruct (N.eqb_spec (towlower x) 0%N); simpl; apply Z.ltb_ge; lia.
  - inversion Ha as [|? ? Hx Ha']; inversion Hb as [|? ? Hy Hb']; subst.
    apply towlower_not_NUL in Hx.
    destruct (N.eqb_spec (towlower x) 0%N) as [|_]; [contradiction|]. simpl.
    destruct (N.eqb_spec (towlower x) (towlower y)) as [E|E].
    + rewrite E, N.ltb_irrefl. simpl. apply IH; assumption.
    + rewrite orb_false_r.
      destruct (N.ltb_spec (towlower x) (towlower y));
        [apply Z.ltb_lt|apply Z.ltb_ge]; lia.
  Qed.

Section VisitOrder.
Context {shlwapi : Shlwapi}.
Variable bIncludeNames : bool.
Variable excludeSpecList : list wstring.

Lemma HashFile_visits szFilePath bytes s :
  fst (HashFile bIncludeNames excludeSpecList szFilePath (Some bytes) s) = 0%Z
  /\ visited (snd (HashFile bIncludeNames excludeSpecList szFilePath
                            (Some bytes) s))
     = visited s ++ [szFilePath].
Proof.
  unfold HashFile. destruct (skipped excludeSpecList szFilePath).
  - split; reflexivity.
  - rewrite hash_name_appends, read_file_all. split; reflexivity.
Qed.

(** A directory that is not excluded and is listed to its end reaches
    the loop over its sorted content. *)
Lemma HashDirectory_loop szDirPath ffds s :
  skipped excludeSpecList szDirPath = false ->
  ffds <> [] ->
  HashDirectory bIncludeNames excludeSpecList szDirPath ffds
                ERROR_NO_MORE_FILES s
  = visit_all (sorted_content szDirPath ffds)
              (hash_name bIncludeNames szDirPath (enter szDirPath s)).
Proof.
  intros Hskip Hne. unfold HashDirectory. rewrite Hskip.
  destruct ffds; [contradiction|reflexivity].
Qed.

Lemma visit_all_history (l : list item) :
  Forall visits_itself l ->
  forall s, fst (visit_all l s) = 0%Z
            /\ visited (snd (visit_all l s)) = visited s ++ paths l.
Proof.
  induction 1 as [|it l Hit _ IH]; intros s; simpl.
  - now rewrite app_nil_r.
  - destruct (Hit s) as [E1 E2]. unfold visit in E1, E2.
    destruct (snd it (GetPath (fst it)) s) as [dwError s1].
    simpl in E1, E2. subst dwError. simpl.
    destruct (IH s1) as [E3 E4]. split; [exact E3|].
    rewrite E4, E2, <- app_assoc. reflexivity.
Qed.

Lemma flat_visits_itself szDirPath (entries : list (wstring * node)) :
  flat entries = true ->
  Forall visits_itself
         (list_content szDirPath
            (map (found_of bIncludeNames excludeSpecList) entries)).
Proof.
  induction entries as [|[name child] es IH]; simpl; intros Hf.
  - constructor.
  - apply andb_prop in Hf as [Hhere Hf]. specialize (IH Hf).
    unfold is_dot in Hhere.
    destruct child as [[bytes|]|sub le]; simpl in *; try discriminate.
    + constructor; [|exact IH]. intros s. apply HashFile_visits.
    + destruct (wstr_eqb name (L ".")); [exact IH|].
      destruct (wstr_eqb name (L "..")); [exact IH|]. discriminate.
Qed.

Lemma flat_directory_history szDirPath entries s :
  flat entries = true ->
  entries <> [] ->
  skipped excludeSpecList szDirPath = false ->
  visited (snd (HashTree bIncludeNames excludeSpecList
                         (Dir entries ERROR_NO_MORE_FILES) szDirPath s))
  = visited s
    ++ szDirPath
       :: paths (sorted_content szDirPath
                   (map (found_of bIncludeNames excludeSpecList) entries)).
Proof.
  intros Hflat Hne Hskip. rewrite HashTree_Dir, HashDirectory_loop.
  - match goal with |- context [visit_all ?l ?st] =>
      destruct (visit_all_history l) with (s := st) as [_ E] end.
    + unfold sorted_content.
      eapply Permutation_Forall; [apply list_sort_perm|].
      apply (flat_visits_itself szDirPath entries Hflat).
    + rewrite E, hash_name_appends. simpl. rewrite <- app_assoc. reflexivity.
  - exact Hskip.
  - destruct entries; [contradiction|discriminate].
Qed.

(** What [HashDirectory] puts into [dirContent]: one element for every
    entry other than "." and "..", in the order of the listing. *)
Lemma list_content_items szDirPath (entries : list (wstring * node)) :
  list_content szDirPath (map (found_of bIncludeNames excludeSpecList) entries)
  = map (item_of bIncludeNames excludeSpecList szDirPath)
        (filter (fun e => negb (is_dot (fst e) (snd e))) entries).
Proof.
  induction entries as [|[name child] es IH]; [reflexivity|].
  cbn [map found_of list_content cFileName isDirectory hash_it filter].
  rewrite IH. unfold is_dot. cbn [fst snd].
  destruct (is_dir child) eqn:Ed;
    destruct (wstr_eqb name (L ".")); destruct (wstr_eqb name (L ".."));
    cbn [andb orb negb map]; try reflexivity;
    f_equal; unfold item_of; cbn [fst snd]; rewrite Ed; reflexivity.
Qed.

Lemma list_empty_dec {B : Type} (l : list B) : {l = []} + {l <> []}.
Proof.
  destruct l; [left; reflexivity|right; discriminate].
Qed.

Lemma sorted_content_children szDirPath (entries : list (wstring * node)) :
  sorted_content szDirPath (map (found_of bIncludeNames excludeSpecList) entries)
  = children_in_order bIncludeNames excludeSpecList szDirPath entries.
Proof.
  unfold sorted_content, children_in_order. now rewrite list_content_items.
Qed.

(** The loop visits the elements in the order of the list and stops after
    the first one that fails. *)
Lemma visit_all_in_order (l : list item) :
  Forall (fun it => exists e below,
              logs (visit it) e (GetPath (fst it) :: below)) l ->
  exists e h, visits_in_order l e h /\ logs (visit_all l) e h.
Proof.
  induction 1 as [|it l (c & below & Hit) _ (e & h & Hin & Hlog)].
  - exists 0%Z, []. split; [constructor|].
    intros s. simpl. now rewrite app_nil_r.
  - destruct (Z.eq_dec c 0) as [->|Hc].
    + exists e, (GetPath (fst it) :: below ++ h).
      split; [now constructor|].
      intros s. simpl. destruct (Hit s) as [E1 E2]. unfold visit in E1, E2.
      destruct (snd it (GetPath (fst it)) s) as [dwError s1].
      simpl in E1, E2. subst dwError. simpl.
      destruct (Hlog s1) as [E3 E4]. split; [exact E3|].
      rewrite E4, E2, <- app_assoc. reflexivity.
    + exists c, (GetPath (fst it) :: below).
      split; [now apply visits_stop|].
      intros s. simpl. destruct (Hit s) as [E1 E2]. unfold visit in E1, E2.
      destruct (snd it (GetPath (fst it)) s) as [dwError s1].
      simpl in E1, E2. subst dwError.
      apply Z.eqb_neq in Hc. rewrite Hc. simpl. split; [reflexivity|exact E2].
Qed.

Lemma HashFile_logs szFilePath data :
  exists e, logs (HashFile bIncludeNames excludeSpecList szFilePath data) e
                 [szFilePath].
Proof.
  destruct (skipped excludeSpecList szFilePath) eqn:Hskip;
    [exists 0%Z|destruct data as [bytes|];
                [exists 0%Z|exists (DWORD_of (-1))]];
    intros s; unfold HashFile; rewrite Hskip;
    rewrite ?hash_name_appends, ?read_file_all; split; reflexivity.
Qed.

(** The walker at work on any tree: the call for the path comes first,
    and what follows and the code returned do not depend on the state. *)
Lemma HashTree_logs (n : node) :
  forall szPath,
  exists e below,
    logs (HashTree bIncludeNames excludeSpecList n szPath) e (szPath :: below).
Proof.
  induction n as [data|entries last_error IH] using node_ind; intros szPath.
  - destruct (HashFile_logs szPath data) as [e He]. exists e, []. exact He.
  - destruct (skipped excludeSpecList szPath) eqn:Hskip.
    { exists 0%Z, []. intros s.
      rewrite HashTree_skipped by exact Hskip. split; reflexivity. }
    destruct (list_empty_dec entries) as [->|Hne].
    { exists last_error, []. intros s. rewrite HashTree_Dir.
      unfold HashDirectory. rewrite Hskip, hash_name_appends.
      split; reflexivity. }
    destruct (Z.eq_dec last_error ERROR_NO_MORE_FILES) as [->|Hle].
    + destruct (visit_all_in_order
                  (children_in_order bIncludeNames excludeSpecList szPath
                                     entries))
        as (e & h & _ & Hlog).
      { apply Forall_forall. intros it Hit. unfold children_in_order in Hit.
        eapply Permutation_in in Hit;
          [|apply Permutation_sym, list_sort_perm].
        apply in_map_iff in Hit as ([name child] & <- & Hin).
        apply filter_In in Hin as [Hin _].
        rewrite Forall_forall in IH. apply (IH _ Hin). }
      exists e, h. intros s.
      rewrite HashTree_Dir, HashDirectory_loop, sorted_content_children;
        [|exact Hskip|destruct entries; [contradiction|discriminate]].
      destruct (Hlog (hash_name bIncludeNames szPath (enter szPath s)))
        as [E1 E2].
      split; [exact E1|].
      rewrite E2, hash_name_appends. simpl. rewrite <- app_assoc. reflexivity.
    + exists last_error, []. intros s. rewrite HashTree_Dir.
      unfold HashDirectory. rewrite Hskip, hash_name_appends.
      apply Z.eqb_neq in Hle. rewrite Hle.
      destruct entries; [contradiction|split; reflexivity].
Qed.

(** A directory that is listed to its end: its children are visited in
    the order of [children_in_order]. *)
Lemma directory_visits szDirPath (entries : list (wstring * node)) :
  skipped excludeSpecList szDirPath = false ->
  entries <> [] ->
  exists e h,
    visits_in_order
      (children_in_order bIncludeNames excludeSpecList szDirPath entries) e h
    /\ logs (HashTree bIncludeNames excludeSpecList
                      (Dir entries ERROR_NO_MORE_FILES) szDirPath)
            e (szDirPath :: h).
Proof.
  intros Hskip Hne.
  destruct (visit_all_in_order
              (children_in_order bIncludeNames excludeSpecList szDirPath
                                 entries))
    as (e & h & Hin & Hlog).
  { apply Forall_forall. intros it Hit. unfold children_in_order in Hit.
    eapply Permutation_in in Hit; [|apply Permutation_sym, list_sort_perm].
    apply in_map_iff in Hit as ([name child] & <- & _).
    apply HashTree_logs. }
  exists e, h. split; [exact Hin|]. intros s.
  rewrite HashTree_Dir, HashDirectory_loop, sorted_content_children;
    [|exact Hskip|destruct entries; [contradiction|discriminate]].
  destruct (Hlog (hash_name bIncludeNames szDirPath (enter szDirPath s)))
    as [E1 E2].
  split; [exact E1|].
  rewrite E2, hash_name_appends. simpl. rewrite <- app_assoc. reflexivity.
Qed.
End VisitOrder.

(** A history that some state-independent account exists for is the one
    that the run from the fresh state shows. *)
Lemma logs_from_fresh (a : action) (e : DWORD) (h : list wstring) :
  (exists e' h', logs a e' h') ->
  fst (a fresh) = e ->
  visited (snd (a fresh)) = h ->
  logs a e h.
Proof.
  intros (e' & h' & H) He Hh s.
  destruct (H fresh) as [E1 E2]. rewrite He in E1. rewrite Hh in E2.
  simpl in E2. subst e' h'. apply H.
Qed.

(** C2.  For every directory that is not excluded and is listed to its
    end, with files and subdirectories in any mix, [HashDirectory] visits
    the children in the order of the list [children_in_order]: the entries
    other than "." and "..", sorted by [compare_nocase] on the full paths.
    A child is visited as a whole, a subdirectory with all that lies below
    it, before the next child begins, and the loop ends after the first
    child that fails.  That list is a permutation of what the file system
    delivered, no element of it comes before an earlier one, and on C
    strings [compare_nocase] is the lexicographic order of the lower-cased
    strings.  For a directory of files the history of the visits is the
    directory followed by its children in that order; a directory holding
    B.txt and a.txt is visited as a.txt, B.txt, whichever way the file
    system lists them; and a subdirectory M takes its place between a.txt
    and z.txt. *)
Theorem C2_children_visited_in_case_insensitive_order {shlwapi : Shlwapi} :
  (forall szDirPath ffds,
      Permutation (list_content szDirPath ffds) (sorted_content szDirPath ffds)
      /\ StronglySorted
           (fun a b => compare_nocase (GetPath (fst b)) (GetPath (fst a)) = false)
           (sorted_content szDirPath ffds))
  /\ (forall a b, c_string a -> c_string b ->
                  compare_nocase a b = nocase_before a b)
  /\ (forall inc specs szDirPath entries s,
         flat entries = true -> entries <> [] ->
         skipped specs szDirPath = false ->
         visited (snd (HashTree inc specs (Dir entries ERROR_NO_MORE_FILES)
                                szDirPath s))
         = visited s
           ++ szDirPath
              :: paths (sorted_content szDirPath
                          (map (found_of inc specs) entries)))
  /\ (forall inc bytes_a bytes_B s,
         let a := (L "a.txt", File (Some bytes_a)) in
         let B := (L "B.txt", File (Some bytes_B)) in
         let order := visited s ++ [L "C:\t"; L "C:\t\a.txt"; L "C:\t\B.txt"] in
         visited (snd (HashTree inc [] (directory [B; a]) (L "C:\t") s)) = order
         /\ visited (snd (HashTree inc [] (directory [a; B]) (L "C:\t") s)) = order)
  /\ (forall inc specs szDirPath entries,
         let children := children_in_order inc specs szDirPath entries in
         Permutation (map (item_of inc specs szDirPath)
                          (filter (fun e => negb (is_dot (fst e) (snd e)))
                                  entries))
                     children
         /\ StronglySorted
              (fun a b =>
                 compare_nocase (GetPath (fst b)) (GetPath (fst a)) = false)
              children
         /\ sorted_content szDirPath (map (found_of inc specs) entries)
            = children)
  /\ (forall inc specs szDirPath entries,
         skipped specs szDirPath = false ->
         entries <> [] ->
         exists e h,
           visits_in_order (children_in_order inc specs szDirPath entries) e h
           /\ forall s,
               fst (HashTree inc specs (Dir entries ERROR_NO_MORE_FILES)
                             szDirPath s) = e
               /\ visited (snd (HashTree inc specs
                                         (Dir entries ERROR_NO_MORE_FILES)
                                         szDirPath s))
                  = visited s ++ szDirPath :: h)
  /\ (forall inc s,
         let z := (L "z.txt", file "last") in
         let M := (L "M", directory [(L "b.txt", file "world")]) in
         let a := (L "a.txt", file "hello") in
         visited (snd (HashTree inc [] (directory [z; M; a]) (L "C:\t") s))
         = visited s ++ [L "C:\t"; L "C:\t\a.txt"; L "C:\t\M";
                         L "C:\t\M\b.txt"; L "C:\t\z.txt"]).
Proof.
  split; [|split; [|split; [|split; [|split; [|split]]]]].
  - intros szDirPath ffds. split.
    + apply list_sort_perm.
    + apply (list_sort_strongly_sorted content_before
               content_before_asym content_before_trans).
  - apply compare_nocase_lexicographic.
  - intros. now apply flat_directory_history.
  - intros inc bytes_a bytes_B s a B order. unfold directory.
    split; rewrite flat_directory_history;
      try reflexivity; try discriminate; apply skipped_nil.
  - intros inc specs szDirPath entries children. split; [|split].
    + apply list_sort_perm.
    + apply (list_sort_strongly_sorted content_before
               content_before_asym content_before_trans).
    + apply sorted_content_children.
  - intros inc specs szDirPath entries Hskip Hne.
    destruct (directory_visits inc specs szDirPath entries Hskip Hne)
      as (e & h & Hin & Hlog).
    exists e, h. split; [exact Hin|exact Hlog].
  - intros inc s z M a.
    apply (logs_from_fresh
             (HashTree inc [] (directory [z; M; a]) (L "C:\t")) 0%Z
             [L "C:\t"; L "C:\t\a.txt"; L "C:\t\M"; L "C:\t\M\b.txt";
              L "C:\t\z.txt"]).
    + destruct (HashTree_logs inc [] (directory [z; M; a]) (L "C:\t"))
        as (e & below & H).
      exists e, (L "C:\t" :: below). exact H.
    + destruct inc; vm_compute; reflexivity.
    + destruct inc; vm_compute; reflexivity.
Qed.

Lemma C2_children_visited_in_case_insensitive_order_witness :
  let shlwapi := Sample.shlwapi in
  let b := (L "b.txt", file "world") in
  let entries := [dot; dotdot; (L "sub", directory [b]); (L "a.txt", file "hello")] in
  (exists e h,
      visits_in_order (children_in_order false [] (L "C:\t") entries) e h
      /\ forall s,
          fst (HashTree false [] (Dir entries ERROR_NO_MORE_FILES) (L "C:\t") s)
          = e
          /\ visited (snd (HashTree false [] (Dir entries ERROR_NO_MORE_FILES)
                                    (L "C:\t") s))
             = visited s ++ L "C:\t" :: h)
  /\ visited (snd (HashTree false [] Sample.scenario (L "C:\t") fresh))
     = [L "C:\t"; L "C:\t\a.txt"; L "C:\t\sub"; L "C:\t\sub\b.txt"]
  /\ compare_nocase (L "C:\t\a.txt") (L "C:\t\B.txt")
     = nocase_before (L "C:\t\a.txt") (L "C:\t\B.txt").
Proof.
  intros shlwapi b entries. split; [|split; [reflexivity|]].
  - apply (proj1 (proj2 (proj2 (proj2 (proj2 (proj2
             C2_children_visited_in_case_insensitive_order)))))
             false [] (L "C:\t") entries);
      [reflexivity|discriminate].
  - apply (proj1 (proj2 C2_children_visited_in_case_insensitive_order));
      unfold c_string; repeat constructor; discriminate.
Defined.

(* ================================================================== *)
(** * Runs of the driver *)
(* ================================================================== *)

Section DriverFacts.
Context {shlwapi : Shlwapi} {openssl : OpenSSL}.

(** A command line that passes the checks reaches the walker. *)
Lemma tmain_accepts w prog argv1 args o n :
  parse_args w args no_options = inl o ->
  length argv1 <= MAX_PATH - 3 ->
  target w = Some n ->
  _tmain w (prog :: argv1 :: args) = hash_and_report o argv1 n.
Proof.
  intros Hparse Hlen Htarget. unfold _tmain. rewrite Hparse, Htarget.
  unfold StringCchLength.
  destruct (Nat.ltb_spec (length argv1) MAX_PATH) as [_|H];
    [|unfold MAX_PATH in *; lia].
  destruct (Nat.ltb_spec (MAX_PATH - 3) (length argv1)); [lia|reflexivity].
Qed.

Lemma report_success o argv1 n s :
  walk o argv1 n = (0%Z, s) ->
  hash_and_report o argv1 n
  = {| exit_status := 0;
       stdout := console s
                 ++ stdout_result (selected o) (digest (selected o) (hash_input s))
                 ++ WaitForExit (bDontWait o);
       written :=
         match outputFile o with
         | Some name =>
             Some (name, file_result (selected o) argv1
                                     (digest (selected o) (hash_input s)))
         | None => None
         end;
       pbDigest := Some (digest (selected o) (hash_input s));
       walked := Some s |}.
Proof.
  unfold walk, hash_and_report, initial, selected, root_path. intros H.
  destruct n; rewrite H; reflexivity.
Qed.

Lemma report_failure o argv1 n e s :
  walk o argv1 n = (e, s) ->
  e <> 0%Z ->
  hash_and_report o argv1 n
  = {| exit_status := int_of_DWORD e;
       stdout := console s ++ WaitForExit (bDontWait o);
       written := opened o;
       pbDigest := None;
       walked := Some s |}.
Proof.
  unfold walk, hash_and_report, initial, selected, root_path. intros H He.
  apply Z.eqb_neq in He. unfold NO_ERROR.
  destruct n; rewrite H, He; reflexivity.
Qed.

(** A readable tree, hashed without names and without exclusion. *)
Lemma walk_plain o argv1 n :
  bIncludeNames o = false ->
  excludeSpecList o = [] ->
  readable n = true ->
  exists s, walk o argv1 n = (0%Z, s)
            /\ hash_input s = files_in_order n (root_path n argv1).
Proof.
  intros Hinc Hspecs Hr. unfold walk. rewrite Hinc, Hspecs.
  destruct (HashTree_files_in_order n (root_path n argv1) Hr (initial o argv1))
    as [E1 E2].
  destruct (HashTree false [] n (root_path n argv1) (initial o argv1))
    as [e s] eqn:E.
  simpl in E1, E2. subst e. exists s. split; [reflexivity|exact E2].
Qed.

Lemma plain_digest w prog argv1 args o n :
  parse_args w args no_options = inl o ->
  bIncludeNames o = false ->
  excludeSpecList o = [] ->
  length argv1 <= MAX_PATH - 3 ->
  target w = Some n ->
  readable n = true ->
  exit_status (_tmain w (prog :: argv1 :: args)) = 0%Z
  /\ pbDigest (_tmain w (prog :: argv1 :: args))
     = Some (digest (selected o) (files_in_order n (root_path n argv1))).
Proof.
  intros Hparse Hinc Hspecs Hlen Htarget Hr.
  rewrite (tmain_accepts w prog argv1 args o n Hparse Hlen Htarget).
  destruct (walk_plain o argv1 n Hinc Hspecs Hr) as (s & Hw & Hs).
  rewrite (report_success o argv1 n s Hw). simpl. now rewrite Hs.
Qed.
End DriverFacts.

(** C3 (as the spec states it, refuted).  The claim speaks of every
    directory tree and of an empty directory without more.  The root of a
    volume that holds nothing lists no entry at all, not even "." and
    "..": [FindFirstFile] fails there (the file system says 2, no file
    found), and the run, without names and without exclusion patterns,
    ends with that code and has no digest, where the claim has the digest
    of the empty message. *)
Lemma C3_empty_volume_root_gives_no_digest :
  let shlwapi := Sample.shlwapi in
  let openssl := Sample.openssl in
  let run := _tmain (Sample.world (Dir [] 2%Z)) [L "DirHash.exe"; L "E:\"] in
  files_in_order (Dir [] 2%Z) (L "E:") = []
  /\ exit_status run = 2%Z
  /\ pbDigest run = None
  /\ pbDigest run <> Some (digest Sha1 []).
Proof.
  cbv zeta. repeat split; try (vm_compute; reflexivity).
  vm_compute. discriminate.
Qed.

(** C3 (amended).  With includeNames false and no exclusion pattern, and
    for a tree that can be read in full (every file opens, every directory
    lists at least one entry, as "." and ".." make sure everywhere but at
    the root of a volume, and is listed to its end) under a root path that
    the driver accepts, the run succeeds and the digest is the digest of
    the contents of the files, concatenated in the order of the
    depth-first traversal with the children of every directory sorted
    without regard to case.  An empty directory (one that lists "." and
    ".." only) gives the digest of the empty message, a lone file the
    digest of its bytes, and the tree a.txt = hello, sub\b.txt = world
    gives SHA-256 of helloworld, even when the file system lists sub
    first. *)
Theorem C3_digest_of_concatenated_contents
        {shlwapi : Shlwapi} {openssl : OpenSSL} :
  (forall w prog argv1 args o n,
      parse_args w args no_options = inl o ->
      bIncludeNames o = false ->
      excludeSpecList o = [] ->
      length argv1 <= MAX_PATH - 3 ->
      target w = Some n ->
      readable n = true ->
      exit_status (_tmain w (prog :: argv1 :: args)) = 0%Z
      /\ pbDigest (_tmain w (prog :: argv1 :: args))
         = Some (digest (selected o) (files_in_order n (root_path n argv1))))
  /\ (forall prog,
         pbDigest (_tmain (Sample.world (directory [])) [prog; L "C:\t"])
         = Some (digest Sha1 []))
  /\ (forall prog bytes,
         pbDigest (_tmain (Sample.world (File (Some bytes)))
                          [prog; L "C:\t\a.txt"])
         = Some (digest Sha1 bytes))
  /\ (forall prog,
         pbDigest (_tmain (Sample.world Sample.scenario)
                          [prog; L "C:\t"; L "SHA256"])
         = Some (digest Sha256 (bytes_of "helloworld"))).
Proof.
  split; [exact plain_digest|].
  assert (length (L "C:\t") <= MAX_PATH - 3) as Hdir
      by (unfold MAX_PATH; simpl; lia).
  assert (length (L "C:\t\a.txt") <= MAX_PATH - 3) as Hfile
      by (unfold MAX_PATH; simpl; lia).
  split; [|split]; intros.
  - rewrite (proj2 (plain_digest (Sample.world (directory [])) prog (L "C:\t") []
                no_options (directory [])
                eq_refl eq_refl eq_refl Hdir eq_refl eq_refl)).
    reflexivity.
  - rewrite (proj2 (plain_digest (Sample.world (File (Some bytes))) prog
                (L "C:\t\a.txt") [] no_options (File (Some bytes))
                eq_refl eq_refl eq_refl Hfile eq_refl eq_refl)).
    reflexivity.
  - rewrite (proj2 (plain_digest (Sample.world Sample.scenario) prog (L "C:\t")
                [L "SHA256"]
                {| outputFile := None; bDontWait := false;
                   bIncludeNames := false; excludeSpecList := [];
                   pHash := Some Sha256 |}
                Sample.scenario
                eq_refl eq_refl eq_refl Hdir eq_refl eq_refl)).
    reflexivity.
Qed.

Lemma C3_digest_of_concatenated_contents_witness :
  let shlwapi := Sample.shlwapi in
  let openssl := Sample.openssl in
  let run := _tmain (Sample.world Sample.scenario)
                    [L "DirHash.exe"; L "C:\t\"; L "md5"; L "-nowait"] in
  exit_status run = 0%Z
  /\ pbDigest run
     = Some (digest Md5 (bytes_of "hello" ++ bytes_of "world")).
Proof.
  intros shlwapi openssl run.
  refine (proj1 C3_digest_of_concatenated_contents
                (Sample.world Sample.scenario) (L "DirHash.exe") (L "C:\t\")
                [L "md5"; L "-nowait"]
                {| outputFile := None; bDontWait := true;
                   bIncludeNames := false; excludeSpecList := [];
                   pHash := Some Md5 |}
                Sample.scenario _ _ _ _ _ _); try reflexivity.
  unfold MAX_PATH. simpl. lia.
Defined.

(* ================================================================== *)
(** * Errors *)
(* ================================================================== *)

Section Errors.
Context {shlwapi : Shlwapi}.





End Errors.



(* ================================================================== *)
(** * Runs on trees that differ by one entry *)
(* ================================================================== *)

Lemma parse_args_with_target (w : World) (n : node) (args : list wstring) :
  forall o, parse_args (with_target w n) args o = parse_args w args o.
Proof.
  assert (forall k args, length args <= k ->
          forall o, parse_args (with_target w n) args o = parse_args w args o)
    as H.
  { induction k as [|k IH]; intros [|arg rest] Hk o; simpl in *;
      try reflexivity; try lia.
    assert (forall o', parse_args (with_target w n) rest o'
                       = parse_args w rest o') as Hrest
        by (intros; apply IH; lia).
    assert (forall o', match rest with
                       | [] => True
                       | _ :: rest' =>
                           parse_args (with_target w n) rest' o'
                           = parse_args w rest' o'
                       end) as Hrest'.
    { intros o'. destruct rest as [|x rest']; [exact I|].
      apply IH. simpl in Hk. lia. }
    destruct (wstr_eqb arg (L "-t")).
    { destruct rest as [|name rest']; [reflexivity|].
      destruct (can_append w name); [apply Hrest'|reflexivity]. }
    destruct (wstr_eqb arg (L "-nowait")); [apply Hrest|].
    destruct (wstr_eqb arg (L "-hashnames")); [apply Hrest|].
    destruct (wstr_eqb arg (L "-exclude")).
    { destruct rest as [|spec rest']; [reflexivity|]. apply Hrest'. }
    destruct (GetHash arg); [apply Hrest|reflexivity]. }
  intros o. apply (H (length args)). lia.
Qed.

Lemma removed_same_root (P : wstring -> node -> Prop) szDirPath t t' argv1 :
  removed P szDirPath t t' -> root_path t argv1 = root_path t' argv1.
Proof.
  destruct 1; reflexivity.
Qed.

Section RunsAlike.
Context {shlwapi : Shlwapi} {openssl : OpenSSL}.

Lemma report_alike o argv1 t t' :
  root_path t argv1 = root_path t' argv1 ->
  alike (HashTree (bIncludeNames o) (excludeSpecList o) t (root_path t argv1))
        (HashTree (bIncludeNames o) (excludeSpecList o) t' (root_path t argv1)) ->
  exit_status (hash_and_report o argv1 t)
  = exit_status (hash_and_report o argv1 t')
  /\ pbDigest (hash_and_report o argv1 t) = pbDigest (hash_and_report o argv1 t').
Proof.
  intros Hroot (e & b & H1 & H2).
  destruct (H1 (initial o argv1)) as [E1 E2].
  destruct (H2 (initial o argv1)) as [E1' E2'].
  rewrite Hroot in E1', E2'.
  fold (walk o argv1 t) in E1, E2. fold (walk o argv1 t') in E1', E2'.
  destruct (walk o argv1 t) as [d s] eqn:Hw.
  destruct (walk o argv1 t') as [d' s'] eqn:Hw'.
  simpl in *. subst d d'.
  destruct (Z.eq_dec e 0) as [->|He].
  - rewrite (report_success o argv1 t s Hw),
            (report_success o argv1 t' s' Hw').
    simpl. now rewrite E2, E2'.
  - rewrite (report_failure o argv1 t e s Hw He),
            (report_failure o argv1 t' e s' Hw' He).
    split; reflexivity.
Qed.

(** Removing an entry that hashes nothing changes neither the exit
    status nor the digest of the run. *)
Lemma tmain_removed (P : wstring -> node -> Prop) w prog argv1 args o t t' :
  parse_args w args no_options = inl o ->
  target w = Some t ->
  (forall szPath n,
      P szPath n ->
      appends (HashTree (bIncludeNames o) (excludeSpecList o) n szPath) 0%Z []) ->
  removed P (root_path t argv1) t t' ->
  exit_status (_tmain w (prog :: argv1 :: args))
  = exit_status (_tmain (with_target w t') (prog :: argv1 :: args))
  /\ pbDigest (_tmain w (prog :: argv1 :: args))
     = pbDigest (_tmain (with_target w t') (prog :: argv1 :: args)).
Proof.
  intros Hparse Htarget HP Hrem. unfold _tmain.
  rewrite parse_args_with_target, Hparse, Htarget.
  destruct (MAX_PATH - 3 <? StringCchLength argv1 MAX_PATH);
    [split; reflexivity|].
  cbn [target with_target]. apply report_alike.
  - exact (removed_same_root P _ t t' argv1 Hrem).
  - eapply removed_alike; eassumption.
Qed.
End RunsAlike.

(** C5 (as the spec states it, refuted).  The claim speaks of every entry
    that matches an exclusion pattern.  A file notes.tmp under a path of
    more than [MAX_PATH] characters matches [*.tmp], by its base name and
    by its full path, and its bytes are hashed all the same. *)
Lemma C5_long_matching_path_is_hashed :
  let shlwapi := Sample.shlwapi in
  let szPath := L "C:\" ++ repeat 100%N 250 ++ L "\notes.tmp" in
  MAX_PATH < length szPath
  /\ PathMatchSpec szPath (L "*.tmp") = true
  /\ PathMatchSpec (PathFindFileName szPath) (L "*.tmp") = true
  /\ HashFile false [L "*.tmp"] szPath (Some (bytes_of "junk")) fresh
     = (0%Z, {| hash_input := bytes_of "junk"; console := [];
                visited := [szPath] |}).
Proof.
  cbv zeta. split; [unfold MAX_PATH; simpl; lia|].
  repeat split; vm_compute; reflexivity.
Qed.

(** C5 (amended).  An entry whose path is not longer than [MAX_PATH] and
    is matched by an exclusion pattern contributes nothing: for a file and
    for a directory the function returns 0 at once, so that no byte is
    hashed and no descendant is visited; and the walker and the whole run
    give the same code and the same digest as on the tree without that
    entry (the directory that held it still listing an entry, as "." and
    ".." make sure everywhere but at the root of a volume). *)
Theorem C5_excluded_entry_contributes_nothing
        {shlwapi : Shlwapi} {openssl : OpenSSL} :
  (forall inc specs szPath n s,
      excluded specs szPath n ->
      HashTree inc specs n szPath s = (0%Z, enter szPath s))
  /\ (forall inc specs szDirPath t t' s,
         removed (excluded specs) szDirPath t t' ->
         fst (HashTree inc specs t szDirPath s)
         = fst (HashTree inc specs t' szDirPath s)
         /\ hash_input (snd (HashTree inc specs t szDirPath s))
            = hash_input (snd (HashTree inc specs t' szDirPath s)))
  /\ (forall w prog argv1 args o t t',
         parse_args w args no_options = inl o ->
         target w = Some t ->
         removed (excluded (excludeSpecList o)) (root_path t argv1) t t' ->
         exit_status (_tmain w (prog :: argv1 :: args))
         = exit_status (_tmain (with_target w t') (prog :: argv1 :: args))
         /\ pbDigest (_tmain w (prog :: argv1 :: args))
            = pbDigest (_tmain (with_target w t') (prog :: argv1 :: args))).
Proof.
  assert (forall inc specs szPath n,
             excluded specs szPath n ->
             appends (HashTree inc specs n szPath) 0%Z []) as Hnothing.
  { intros inc specs szPath n Hex s.
    rewrite HashTree_skipped by (apply skipped_iff, Hex).
    simpl. now rewrite app_nil_r. }
  split; [|split].
  - intros inc specs szPath n s Hex.
    apply HashTree_skipped, skipped_iff, Hex.
  - intros inc specs szDirPath t t' s Hrem.
    destruct (removed_alike inc specs (excluded specs) (Hnothing inc specs)
                            szDirPath t t' Hrem) as (e & b & H1 & H2).
    destruct (H1 s) as [-> ->], (H2 s) as [-> ->]. split; reflexivity.
  - intros w prog argv1 args o t t' Hparse Htarget Hrem.
    eapply tmain_removed; try eassumption. apply Hnothing.
Qed.

(** The scenario with a file notes.tmp added, run with -exclude *.tmp. *)
Lemma C5_excluded_entry_contributes_nothing_witness :
  let shlwapi := Sample.shlwapi in
  let openssl := Sample.openssl in
  let sub := (L "sub", directory [(L "b.txt", file "world")]) in
  let a := (L "a.txt", file "hello") in
  let notes := (L "notes.tmp", file "junk") in
  let argv := [L "DirHash.exe"; L "C:\t"; L "-exclude"; L "*.tmp"] in
  pbDigest (_tmain (Sample.world (Dir ([dot; dotdot; sub] ++ notes :: [a])
                                      ERROR_NO_MORE_FILES)) argv)
  = pbDigest (_tmain (Sample.world (Dir ([dot; dotdot; sub] ++ [a])
                                        ERROR_NO_MORE_FILES)) argv).
Proof.
  intros shlwapi openssl sub a notes argv.
  refine (proj2 (proj2 (proj2 C5_excluded_entry_contributes_nothing)
                   (Sample.world (Dir ([dot; dotdot; sub] ++ notes :: [a])
                                      ERROR_NO_MORE_FILES))
                   (L "DirHash.exe") (L "C:\t") [L "-exclude"; L "*.tmp"]
                   {| outputFile := None; bDontWait := false;
                      bIncludeNames := false; excludeSpecList := [L "*.tmp"];
                      pHash := None |}
                   _ (Dir ([dot; dotdot; sub] ++ [a]) ERROR_NO_MORE_FILES)
                   eq_refl eq_refl _)).
  apply removed_here.
  - discriminate.
  - split.
    + unfold MAX_PATH. simpl. lia.
    + exists (L "*.tmp"). split; [left; reflexivity|reflexivity].
Defined.

(* ================================================================== *)
(** * Names in the hash *)
(* ================================================================== *)

Lemma name_bytes_folded {shlwapi : Shlwapi} (szPath : wstring) :
  name_bytes true szPath = wbytes (folded_name szPath).
Proof.
  unfold name_bytes, folded_name, canonalized.
  destruct (Nat.ltb_spec MAX_PATH (length szPath));
    destruct (Nat.leb_spec (length szPath) MAX_PATH); try lia; reflexivity.
Qed.

(** The bytes of a string: two for every code unit, the low byte first. *)
Lemma to_N_byte_of_N (n : N) : Byte.to_N (byte_of_N n) = (n mod 256)%N.
Proof.
  unfold byte_of_N. destruct (Byte.of_N (n mod 256)) as [b|] eqn:E.
  - now apply Byte.to_of_N.
  - apply Byte.of_N_None_iff in E.
    pose proof (N.mod_lt n 256). lia.
Qed.

Lemma wbytes_length (sz : wstring) : length (wbytes sz) = 2 * length sz.
Proof.
  induction sz as [|c sz IH]; [reflexivity|].
  change (wbytes (c :: sz))
    with (byte_of_N c :: byte_of_N (c / 256) :: wbytes sz).
  simpl length. rewrite IH. lia.
Qed.

Lemma code_units_wbytes (sz : wstring) :
  wide sz -> code_units (wbytes sz) = sz.
Proof.
  induction 1 as [|c sz Hc _ IH]; [reflexivity|].
  change (wbytes (c :: sz))
    with (byte_of_N c :: byte_of_N (c / 256) :: wbytes sz).
  cbn [code_units]. rewrite IH, !to_N_byte_of_N. f_equal.
  assert (c / 256 < 256)%N as Hhigh
      by (apply N.Div0.div_lt_upper_bound; lia).
  rewrite (N.mod_small (c / 256) 256) by exact Hhigh.
  pose proof (N.div_mod c 256). lia.
Qed.

(** C6.  With name folding, an entry that is not excluded gives to the
    hash the bytes of its folded name first: the raw path when the path is
    longer than [MAX_PATH], in which case no pattern can exclude it, and
    otherwise the canonical path, or the raw path when [PathCanonicalize]
    fails.  A file then gives its content, a directory what its children
    give.  The bytes of a name are those of its code units, in their
    order, two for each, the low byte before the high byte: twice as many
    bytes as the name has characters, from which the name can be read
    back. *)
Theorem C6_bytes_of_the_folded_name {shlwapi : Shlwapi} :
  (forall specs szPath,
      MAX_PATH < length szPath ->
      skipped specs szPath = false /\ folded_name szPath = szPath)
  /\ (forall szPath canonical,
         length szPath <= MAX_PATH ->
         PathCanonicalize szPath = Some canonical ->
         folded_name szPath = canonical)
  /\ (forall szPath,
         length szPath <= MAX_PATH ->
         PathCanonicalize szPath = None ->
         folded_name szPath = szPath)
  /\ (forall specs szPath data s,
         skipped specs szPath = false ->
         hash_input (snd (HashFile true specs szPath data s))
         = hash_input s ++ wbytes (folded_name szPath)
           ++ match data with Some bytes => bytes | None => [] end)
  /\ (forall specs szPath entries last_error s,
         skipped specs szPath = false ->
         exists rest,
           hash_input (snd (HashTree true specs (Dir entries last_error) szPath s))
           = hash_input s ++ wbytes (folded_name szPath) ++ rest)
  /\ (wbytes [] = []
      /\ forall c sz,
          exists low high,
            wbytes (c :: sz) = low :: high :: wbytes sz
            /\ Byte.to_N low = (c mod 256)%N
            /\ Byte.to_N high = ((c / 256) mod 256)%N)
  /\ (forall sz,
         length (wbytes sz) = 2 * length sz
         /\ (wide sz -> code_units (wbytes sz) = sz))
  /\ wbytes [67%N; 58%N; 9786%N] = [x43; x00; x3a; x00; x3a; x26]
  /\ (forall specs szPath data s,
         skipped specs szPath = false ->
         wide (folded_name szPath) ->
         exists name,
           hash_input (snd (HashFile true specs szPath data s))
           = hash_input s ++ name
             ++ match data with Some bytes => bytes | None => [] end
           /\ length name = 2 * length (folded_name szPath)
           /\ code_units name = folded_name szPath)
  /\ (forall specs szPath entries last_error s,
         skipped specs szPath = false ->
         wide (folded_name szPath) ->
         exists name rest,
           hash_input (snd (HashTree true specs (Dir entries last_error) szPath s))
           = hash_input s ++ name ++ rest
           /\ length name = 2 * length (folded_name szPath)
           /\ code_units name = folded_name szPath).
Proof.
  assert (forall specs szPath data s,
             skipped specs szPath = false ->
             hash_input (snd (HashFile true specs szPath data s))
             = hash_input s ++ wbytes (folded_name szPath)
               ++ match data with Some bytes => bytes | None => [] end)
    as Hfile.
  { intros specs szPath data s Hskip.
    destruct (HashFile_appends true specs szPath data s) as [_ E].
    rewrite E. unfold file_effect. rewrite Hskip, name_bytes_folded.
    destruct data; simpl; [reflexivity|now rewrite app_nil_r]. }
  assert (forall specs szPath entries last_error s,
             skipped specs szPath = false ->
             exists rest,
               hash_input (snd (HashTree true specs (Dir entries last_error)
                                         szPath s))
               = hash_input s ++ wbytes (folded_name szPath) ++ rest)
    as Hdir.
  { intros specs szPath entries last_error s Hskip.
    rewrite HashTree_Dir.
    destruct (visit_all_alike _ _ (item_alike_visit _ _
                (sorted_content_alike szPath _ _
                   (found_of_all_alike true specs szPath entries))))
      as (e & b & Hloop & _).
    destruct (HashDirectory_appends true specs szPath _ last_error e b Hloop s)
      as [_ E].
    rewrite E. unfold directory_effect. rewrite Hskip, name_bytes_folded.
    destruct (map (found_of true specs) entries);
      [|destruct (negb (last_error =? ERROR_NO_MORE_FILES)%Z)];
      simpl; eexists; try reflexivity.
    all: now rewrite app_nil_r. }
  split; [|split; [|split; [|split; [|split; [|split; [|split; [|split;
    [|split]]]]]]]].
  - intros specs szPath Hlen. split.
    + unfold skipped. destruct (Nat.leb_spec (length szPath) MAX_PATH);
        [lia|reflexivity].
    + unfold folded_name. destruct (Nat.leb_spec (length szPath) MAX_PATH);
        [lia|reflexivity].
  - intros szPath canonical Hlen Hc. unfold folded_name. rewrite Hc.
    destruct (Nat.leb_spec (length szPath) MAX_PATH); [reflexivity|lia].
  - intros szPath Hlen Hc. unfold folded_name. rewrite Hc.
    destruct (Nat.leb_spec (length szPath) MAX_PATH); reflexivity.
  - exact Hfile.
  - exact Hdir.
  - split; [reflexivity|]. intros c sz.
    exists (byte_of_N c), (byte_of_N (c / 256)).
    rewrite !to_N_byte_of_N. repeat split.
  - intros sz. split; [apply wbytes_length|apply code_units_wbytes].
  - reflexivity.
  - intros specs szPath data s Hskip Hwide.
    exists (wbytes (folded_name szPath)).
    split; [now apply Hfile|].
    split; [apply wbytes_length|now apply code_units_wbytes].
  - intros specs szPath entries last_error s Hskip Hwide.
    destruct (Hdir specs szPath entries last_error s Hskip) as [rest E].
    exists (wbytes (folded_name szPath)), rest.
    split; [exact E|].
    split; [apply wbytes_length|now apply code_units_wbytes].
Qed.

(** A path with a "." segment: the canonical path is what is hashed,
    twenty bytes for its ten characters. *)
Lemma C6_bytes_of_the_folded_name_witness :
  let shlwapi := Sample.shlwapi in
  skipped [L "*.tmp"] (L "C:\t\.\a.txt") = false
  /\ folded_name (L "C:\t\.\a.txt") = L "C:\t\a.txt"
  /\ hash_input (snd (HashFile true [L "*.tmp"] (L "C:\t\.\a.txt")
                               (Some (bytes_of "hello")) fresh))
     = [x43; x00; x3a; x00; x5c; x00; x74; x00; x5c; x00;
        x61; x00; x2e; x00; x74; x00; x78; x00; x74; x00]
       ++ bytes_of "hello".
Proof.
  intros shlwapi. split; [reflexivity|]. split.
  - apply C6_bytes_of_the_folded_name; [unfold MAX_PATH; simpl; lia|reflexivity].
  - exact (proj1 (proj2 (proj2 (proj2 C6_bytes_of_the_folded_name)))
             [L "*.tmp"] (L "C:\t\.\a.txt") (Some (bytes_of "hello")) fresh
             eq_refl).
Defined.

(* ================================================================== *)
(** * Empty files *)
(* ================================================================== *)





(* ================================================================== *)
(** * Exit status *)
(* ================================================================== *)

Section ExitStatus.
Context {shlwapi : Shlwapi} {openssl : OpenSSL}.

(** The exit statuses of the runs that the checks of [_tmain] decide
    as the source means them to. *)
Lemma exit_status_table w prog argv1 args :
  (forall text,
      parse_args w args no_options = inr text ->
      exit_status (_tmain w (prog :: argv1 :: args)) = 1%Z)
  /\ (forall o,
         parse_args w args no_options = inl o ->
         MAX_PATH - 3 < length argv1 < MAX_PATH ->
         exit_status (_tmain w (prog :: argv1 :: args)) = (-1)%Z)
  /\ (forall o,
         parse_args w args no_options = inl o ->
         length argv1 <= MAX_PATH - 3 ->
         target w = None ->
         exit_status (_tmain w (prog :: argv1 :: args)) = (-2)%Z)
  /\ (forall o n s,
         parse_args w args no_options = inl o ->
         length argv1 <= MAX_PATH - 3 ->
         target w = Some n ->
         walk o argv1 n = (0%Z, s) ->
         exit_status (_tmain w (prog :: argv1 :: args)) = 0%Z)
  /\ (forall o n e s,
         parse_args w args no_options = inl o ->
         length argv1 <= MAX_PATH - 3 ->
         target w = Some n ->
         walk o argv1 n = (e, s) ->
         e <> 0%Z ->
         exit_status (_tmain w (prog :: argv1 :: args)) = int_of_DWORD e).
Proof.
  repeat split.
  - intros text H. unfold _tmain. now rewrite H.
  - intros o H Hlen. unfold _tmain, StringCchLength. rewrite H.
    destruct (Nat.ltb_spec (length argv1) MAX_PATH); [|lia].
    destruct (Nat.ltb_spec (MAX_PATH - 3) (length argv1)); [reflexivity|lia].
  - intros o H Hlen Ht. unfold _tmain, StringCchLength. rewrite H, Ht.
    destruct (Nat.ltb_spec (length argv1) MAX_PATH);
      [|unfold MAX_PATH in *; lia].
    destruct (Nat.ltb_spec (MAX_PATH - 3) (length argv1)); [lia|reflexivity].
  - intros o n s H Hlen Ht Hw.
    rewrite (tmain_accepts w prog argv1 args o n H Hlen Ht).
    now rewrite (report_success o argv1 n s Hw).
  - intros o n e s H Hlen Ht Hw He.
    rewrite (tmain_accepts w prog argv1 args o n H Hlen Ht).
    now rewrite (report_failure o argv1 n e s Hw He).
Qed.

(** [StringCchLength] fails on a string of [MAX_PATH] characters or more
    and leaves 0 in [length_of_arg]: the test against [MAX_PATH - 3]
    lets such a path through. *)
Lemma tmain_long_path w prog argv1 args o :
  parse_args w args no_options = inl o ->
  MAX_PATH <= length argv1 ->
  _tmain w (prog :: argv1 :: args)
  = match target w with
    | None =>
        early_exit (-2)
          (lines ["Error: The given input file doesn't exist"]%string
           ++ WaitForExit (bDontWait o))
          (opened o)
    | Some n => hash_and_report o argv1 n
    end.
Proof.
  intros H Hlen. unfold _tmain, StringCchLength. rewrite H.
  destruct (Nat.ltb_spec (length argv1) MAX_PATH); [lia|]. reflexivity.
Qed.
End ExitStatus.

(** C7 (the code at the failing input).  The claim: a path beyond the
    limit gives the exit status -1, before any hashing.  A path of 259
    characters does; a path of 300 characters is not rejected: when
    nothing exists at that path the status is -2, and when a directory
    does the run hashes it and ends with status 0 and a digest. *)
Theorem C7_path_of_300_characters_is_not_rejected
        {shlwapi : Shlwapi} {openssl : OpenSSL} :
  let nowhere := {| target := None; can_append := fun _ => true |} in
  let somewhere := Sample.world (directory []) in
  let prog := L "DirHash.exe" in
  exit_status (_tmain nowhere [prog; repeat 97%N 259]) = (-1)%Z
  /\ exit_status (_tmain somewhere [prog; repeat 97%N 259]) = (-1)%Z
  /\ exit_status (_tmain nowhere [prog; repeat 97%N 300]) = (-2)%Z
  /\ exit_status (_tmain somewhere [prog; repeat 97%N 300]) = 0%Z
  /\ pbDigest (_tmain somewhere [prog; repeat 97%N 300]) = Some (digest Sha1 []).
Proof.
  cbv zeta. repeat split; reflexivity.
Qed.

(* ================================================================== *)
(** * The result lines *)
(* ================================================================== *)

Lemma hexdigit_upper (d : N) : (d < 16)%N -> upper_hex (hexdigit d).
Proof.
  unfold upper_hex, hexdigit. destruct (N.ltb_spec d 10); lia.
Qed.

Lemma hex2_upper (b : byte) : Forall upper_hex (hex2 b).
Proof.
  pose proof (Byte.to_N_bounded b) as Hb.
  unfold hex2. apply Forall_cons; [|apply Forall_cons; [|apply Forall_nil]];
    apply hexdigit_upper.
  - apply N.Div0.div_lt_upper_bound. lia.
  - apply N.mod_lt. lia.
Qed.

Lemma hex_bytes_upper (bytes : list byte) : Forall upper_hex (flat_map hex2 bytes).
Proof.
  induction bytes as [|b bytes IH]; simpl.
  - constructor.
  - pose proof (hex2_upper b) as Hb. unfold hex2 in *.
    inversion Hb as [|? ? H1 Hb']; inversion Hb' as [|? ? H2 _]; subst.
    apply Forall_cons; [exact H1|]. apply Forall_cons; [exact H2|exact IH].
Qed.

Lemma hex_bytes_length (bytes : list byte) :
  length (flat_map hex2 bytes) = 2 * length bytes.
Proof.
  induction bytes as [|b bytes IH]; simpl; [reflexivity|]. rewrite IH. lia.
Qed.

Lemma hex_digest_all {openssl : OpenSSL} (h : Hash) (m : list byte) :
  hex_digest h (digest h m) = flat_map hex2 (digest h m).
Proof.
  unfold hex_digest. rewrite firstn_all2; [reflexivity|].
  rewrite digest_length. lia.
Qed.

(** C8 (as the spec states it, refuted).  The claim: the result file gets
    the content that goes to stdout.  In a run with -t the line written to
    the file names what was hashed, and the line on stdout does not. *)
Lemma C8_result_file_line_is_another_line :
  let shlwapi := Sample.shlwapi in
  let openssl := Sample.openssl in
  let run := _tmain (Sample.world Sample.scenario)
                    [L "DirHash.exe"; L "C:\t"; L "-t"; L "out.txt"; L "-nowait"] in
  let on_stdout :=
    L "SHA1 (20 bytes) = 68656C6C6F776F726C6400000000000000000000"
      ++ [newline] in
  let in_file :=
    L "SHA1 hash of " ++ [quote] ++ L "t" ++ [quote]
      ++ L " (20 bytes) = 68656C6C6F776F726C6400000000000000000000"
      ++ [newline] in
  exit_status run = 0%Z
  /\ stdout run = banner ++ using_line Sha1 (L "C:\t") ++ on_stdout
  /\ written run = Some (L "out.txt", in_file)
  /\ in_file <> on_stdout.
Proof.
  cbv zeta. repeat split; try reflexivity. vm_compute. discriminate.
Qed.

(** C8 (amended).  On success stdout gets, after what was printed before,
    the line [<ALGO> (<N> bytes) = <HEX>] and a newline; with -t the
    result file gets the line [<ALGO> hash of "<name>" (<N> bytes) = <HEX>]
    and a newline, where <name> is what [PathFindFileName] gives for
    [argv[1]].  <HEX> is the same in both: two upper-case hexadecimal
    digits for every byte of the digest, 2 * digest size characters. *)
Theorem C8_result_lines {shlwapi : Shlwapi} {openssl : OpenSSL}
        w prog argv1 args o n s
        (Hparse : parse_args w args no_options = inl o)
        (Hlen : length argv1 <= MAX_PATH - 3)
        (Htarget : target w = Some n)
        (Hwalk : walk o argv1 n = (0%Z, s)) :
  let h := selected o in
  let hex := flat_map hex2 (digest h (hash_input s)) in
  let run := _tmain w (prog :: argv1 :: args) in
  exit_status run = 0%Z
  /\ stdout run
     = console s
       ++ (GetID h ++ L " (" ++ dec (GetHashSize h) ++ L " bytes) = "
           ++ hex ++ [newline])
       ++ WaitForExit (bDontWait o)
  /\ written run
     = match outputFile o with
       | Some name =>
           Some (name,
                 GetID h ++ L " hash of " ++ [quote] ++ PathFindFileName argv1
                 ++ [quote] ++ L " (" ++ dec (GetHashSize h) ++ L " bytes) = "
                 ++ hex ++ [newline])
       | None => None
       end
  /\ length hex = 2 * GetHashSize h
  /\ Forall upper_hex hex.
Proof.
  intros h hex run. unfold run.
  rewrite (tmain_accepts w prog argv1 args o n Hparse Hlen Htarget).
  rewrite (report_success o argv1 n s Hwalk).
  unfold stdout_result, file_result. rewrite hex_digest_all.
  cbn [exit_status stdout written]. repeat split.
  - unfold hex. rewrite hex_bytes_length, digest_length. reflexivity.
  - apply hex_bytes_upper.
Qed.

Lemma C8_result_lines_witness :
  let shlwapi := Sample.shlwapi in
  let openssl := Sample.openssl in
  let run := _tmain (Sample.world Sample.scenario)
                    [L "DirHash.exe"; L "C:\t"; L "-t"; L "out.txt"; L "-nowait"] in
  exit_status run = 0%Z
  /\ length (flat_map hex2 (digest Sha1 (bytes_of "helloworld"))) = 40.
Proof.
  intros shlwapi openssl run.
  pose (o := {| outputFile := Some (L "out.txt"); bDontWait := true;
                bIncludeNames := false; excludeSpecList := [];
                pHash := None |}).
  destruct (C8_result_lines (Sample.world Sample.scenario) (L "DirHash.exe")
              (L "C:\t") [L "-t"; L "out.txt"; L "-nowait"] o Sample.scenario
              (snd (walk o (L "C:\t") Sample.scenario)))
    as (Hexit & _ & _ & Hlength & _).
  - reflexivity.
  - unfold MAX_PATH. simpl. lia.
  - reflexivity.
  - reflexivity.
  - split; [exact Hexit|exact Hlength].
Defined.

(* ================================================================== *)
(** * An excluded root *)
(* ================================================================== *)

(** C9 (as the spec states it, refuted).  The claim: a root path that is
    not longer than the platform maximum and matches an exclusion pattern
    gives a successful run.  A root path of 258 characters that matches
    is not longer than [MAX_PATH] and would be excluded by the walker,
    but the driver rejects it: exit status -1 and no digest. *)
Lemma C9_excluded_root_of_258_characters_is_rejected :
  let shlwapi := Sample.shlwapi in
  let openssl := Sample.openssl in
  let argv1 := repeat 97%N 254 ++ L ".tmp" in
  let run := _tmain (Sample.world (directory []))
                    [L "DirHash.exe"; argv1; L "-exclude"; L "*.tmp"] in
  length argv1 <= MAX_PATH
  /\ skipped [L "*.tmp"] (root_path (directory []) argv1) = true
  /\ exit_status run = (-1)%Z
  /\ pbDigest run = None.
Proof.
  cbv zeta. split; [unfold MAX_PATH; simpl; lia|].
  repeat split; vm_compute; reflexivity.
Qed.

(** C9 (amended).  When the root path is accepted by the driver (it has at
    most [MAX_PATH - 3] characters and something exists there) and, as the
    walker receives it, is matched by an exclusion pattern, the run is a
    success: the walker returns at once and hashes nothing, the digest of
    the empty message is printed, and the exit status is 0. *)
Theorem C9_excluded_root_is_a_success {shlwapi : Shlwapi} {openssl : OpenSSL}
        w prog argv1 args o n
        (Hparse : parse_args w args no_options = inl o)
        (Hlen : length argv1 <= MAX_PATH - 3)
        (Htarget : target w = Some n)
        (Hmatch : exists spec,
            In spec (excludeSpecList o)
            /\ PathMatchSpec (root_path n argv1) spec = true) :
  let h := selected o in
  let run := _tmain w (prog :: argv1 :: args) in
  walk o argv1 n = (0%Z, enter (root_path n argv1) (initial o argv1))
  /\ exit_status run = 0%Z
  /\ pbDigest run = Some (digest h [])
  /\ stdout run
     = banner ++ using_line h argv1
       ++ (GetID h ++ L " (" ++ dec (GetHashSize h) ++ L " bytes) = "
           ++ flat_map hex2 (digest h []) ++ [newline])
       ++ WaitForExit (bDontWait o).
Proof.
  intros h run.
  assert (walk o argv1 n = (0%Z, enter (root_path n argv1) (initial o argv1)))
    as Hwalk.
  { unfold walk. apply HashTree_skipped, skipped_iff. split; [|exact Hmatch].
    assert (length (root_path n argv1) <= length argv1) as Hroot.
    { destruct n; simpl; [lia|]. unfold strip_trailing.
      destruct (_ || _); [|lia].
      destruct argv1 as [|c rest]; [simpl; lia|].
      rewrite (app_removelast_last (l := c :: rest) 0%N) at 2 by discriminate.
      rewrite length_app. simpl. lia. }
    unfold MAX_PATH in *. lia. }
  split; [exact Hwalk|]. unfold run.
  rewrite (tmain_accepts w prog argv1 args o n Hparse Hlen Htarget).
  rewrite (report_success o argv1 n _ Hwalk).
  unfold stdout_result. rewrite hex_digest_all.
  repeat split.
Qed.

Lemma C9_excluded_root_is_a_success_witness :
  let shlwapi := Sample.shlwapi in
  let openssl := Sample.openssl in
  let run := _tmain (Sample.world Sample.scenario)
                    [L "DirHash.exe"; L "C:\tmp\"; L "-exclude"; L "*tmp"] in
  exit_status run = 0%Z /\ pbDigest run = Some (digest Sha1 []).
Proof.
  intros shlwapi openssl run.
  destruct (C9_excluded_root_is_a_success
              (Sample.world Sample.scenario) (L "DirHash.exe") (L "C:\tmp\")
              [L "-exclude"; L "*tmp"]
              {| outputFile := None; bDontWait := false;
                 bIncludeNames := false; excludeSpecList := [L "*tmp"];
                 pHash := None |}
              Sample.scenario)
    as (_ & Hexit & Hdigest & _).
  - reflexivity.
  - unfold MAX_PATH. simpl. lia.
  - reflexivity.
  - exists (L "*tmp"). split; [left; reflexivity|reflexivity].
  - split; [exact Hexit|exact Hdigest].
Defined.

(* ================================================================== *)
(** * The comparison of names and the choice of the algorithm *)
(* ================================================================== *)

Lemma towlower_idempotent (c : wchar) : towlower (towlower c) = towlower c.
Proof.
  unfold towlower.
  destruct (N.leb_spec 65 c); destruct (N.leb_spec c 90); simpl;
    try reflexivity.
  - destruct (N.leb_spec 65 (c + 32)); destruct (N.leb_spec (c + 32) 90);
      simpl; try reflexivity; lia.
  - destruct (N.leb_spec 65 c); destruct (N.leb_spec c 90);
      simpl; try reflexivity; lia.
  - destruct (N.leb_spec 65 c); destruct (N.leb_spec c 90);
      simpl; try reflexivity; lia.
  - destruct (N.leb_spec 65 c); destruct (N.leb_spec c 90);
      simpl; try reflexivity; lia.
Qed.

(** [_wcsicmp] sees its arguments through [towlower] only. *)
Lemma wcsicmp_lower_l (a a' b : wstring) :
  map towlower a = map towlower a' -> _wcsicmp a b = _wcsicmp a' b.
Proof.
  revert a' b. induction a as [|c a IH]; intros [|c' a'] b H;
    try discriminate; [reflexivity|].
  simpl in H. injection H as Hc Ha. simpl. rewrite Hc.
  destruct (negb (towlower c' =? 0)%N && (towlower c' =? towlower (hd 0%N b))%N);
    [apply IH, Ha|reflexivity].
Qed.

Lemma wcsicmp_lower_r (a b b' : wstring) :
  map towlower b = map towlower b' -> _wcsicmp a b = _wcsicmp a b'.
Proof.
  intros H. rewrite (wcsicmp_opp b a), (wcsicmp_opp b' a).
  now rewrite (wcsicmp_lower_l b b' a H).
Qed.

Lemma map_towlower_idempotent (a : wstring) :
  map towlower (map towlower a) = map towlower a.
Proof.
  rewrite map_map. apply map_ext, towlower_idempotent.
Qed.

Lemma wcsicmp_refl (a : wstring) : _wcsicmp a a = 0%Z.
Proof.
  pose proof (wcsicmp_opp a a). lia.
Qed.

Lemma wcsicmp_equal_trans (a b c : wstring) :
  _wcsicmp a b = 0%Z -> _wcsicmp b c = 0%Z -> _wcsicmp a c = 0%Z.
Proof.
  intros Hab Hbc.
  pose proof (wcsicmp_trans a b c). pose proof (wcsicmp_trans c b a).
  pose proof (wcsicmp_opp a b). pose proof (wcsicmp_opp b c).
  pose proof (wcsicmp_opp a c). lia.
Qed.

Lemma wcsicmp_less_trans (a b c : wstring) :
  (_wcsicmp a b < 0)%Z -> (_wcsicmp b c < 0)%Z -> (_wcsicmp a c < 0)%Z.
Proof.
  intros Hab Hbc.
  pose proof (wcsicmp_trans a b c). pose proof (wcsicmp_trans c a b).
  pose proof (wcsicmp_opp a c). pose proof (wcsicmp_opp b c). lia.
Qed.

(** X1.  [compare_nocase] is a strict weak order, which is what
    [std::list::sort] asks of its comparison: no string comes before
    itself, the order is asymmetric and transitive, and so is "neither
    comes before the other"; and it does not see the case of the letters
    A to Z. *)
Theorem X1_compare_nocase_is_a_strict_weak_order :
  (forall a, compare_nocase a a = false)
  /\ (forall a b, compare_nocase a b = true -> compare_nocase b a = false)
  /\ (forall a b c, compare_nocase a b = true -> compare_nocase b c = true ->
                    compare_nocase a c = true)
  /\ (forall a b c, compare_nocase a b = false -> compare_nocase b c = false ->
                    compare_nocase a c = false)
  /\ (forall a b, compare_nocase (map towlower a) (map towlower b)
                  = compare_nocase a b).
Proof.
  unfold compare_nocase. repeat split.
  - intros a. rewrite wcsicmp_refl. reflexivity.
  - intros a b. apply compare_nocase_asym.
  - intros a b c H1 H2. apply Z.ltb_lt. apply Z.ltb_lt in H1, H2.
    eapply wcsicmp_less_trans; eassumption.
  - intros a b c H1 H2. exact (compare_nocase_trans c b a H2 H1).
  - intros a b.
    rewrite (wcsicmp_lower_l (map towlower a) a) by apply map_towlower_idempotent.
    rewrite (wcsicmp_lower_r a (map towlower b) b) by apply map_towlower_idempotent.
    reflexivity.
Qed.

Lemma GetID_apart (h h' : Hash) :
  _wcsicmp (GetID h) (GetID h') = 0%Z -> h = h'.
Proof.
  destruct h, h'; intros H; try reflexivity; vm_compute in H; discriminate.
Qed.

Lemma GetHash_sound (szHashId : wstring) (h : Hash) :
  GetHash szHashId = Some h -> _wcsicmp szHashId (GetID h) = 0%Z.
Proof.
  unfold GetHash, tcsicmp_eq.
  repeat match goal with
         | |- context [(?x =? 0)%Z] => destruct (Z.eqb_spec x 0)
         end; intros H; inversion H; subst; assumption.
Qed.

Lemma GetHash_complete (szHashId : wstring) (h : Hash) :
  _wcsicmp szHashId (GetID h) = 0%Z -> GetHash szHashId = Some h.
Proof.
  intros H. destruct (GetHash szHashId) as [h'|] eqn:E.
  - apply GetHash_sound in E. f_equal. apply GetID_apart.
    eapply wcsicmp_equal_trans; [|exact H].
    rewrite wcsicmp_opp, E. reflexivity.
  - exfalso. revert E. unfold GetHash, tcsicmp_eq.
    destruct h; simpl in H;
      repeat match goal with
             | |- context [(?x =? 0)%Z] => destruct (Z.eqb_spec x 0)
             end; try discriminate; contradiction.
Qed.

(** X2.  [Hash::GetHash] finds an algorithm exactly for the five
    identifiers, compared without regard to case: it returns the class
    whose [GetID] equals the token under [_tcsicmp], it finds every class
    from its own identifier, it returns NULL for every other token, and
    tokens that differ by case only get the same answer. *)
Theorem X2_GetHash_recognizes_the_identifiers :
  (forall h, GetHash (GetID h) = Some h)
  /\ (forall szHashId h,
         GetHash szHashId = Some h <-> _wcsicmp szHashId (GetID h) = 0%Z)
  /\ (forall szHashId,
         GetHash szHashId = None
         <-> forall h, _wcsicmp szHashId (GetID h) <> 0%Z)
  /\ (forall szHashId szHashId',
         map towlower szHashId = map towlower szHashId' ->
         GetHash szHashId = GetHash szHashId').
Proof.
  split; [|split; [|split]].
  - intros h. apply GetHash_complete, wcsicmp_refl.
  - intros szHashId h. split; [apply GetHash_sound|apply GetHash_complete].
  - intros szHashId. split.
    + intros Hnone h Heq. apply GetHash_complete in Heq. congruence.
    + intros Hall. destruct (GetHash szHashId) as [h|] eqn:E; [|reflexivity].
      apply GetHash_sound in E. destruct (Hall h E).
  - intros szHashId szHashId' H. unfold GetHash, tcsicmp_eq.
    now rewrite !(wcsicmp_lower_l szHashId szHashId' _ H).
Qed.

(* ================================================================== *)
(** * The paths of the children *)
(* ================================================================== *)

Lemma GetPath_mkCDirContent (szPath szName : wstring) (bIsDir : bool) :
  GetPath (mkCDirContent szPath szName bIsDir) = with_separator szPath ++ szName.
Proof.
  reflexivity.
Qed.

Lemma last_removelast (l : list wchar) :
  l <> [] -> l = removelast l ++ [nth (length l - 1) l 0%N].
Proof.
  intros H. rewrite (app_removelast_last 0%N H) at 1. f_equal. f_equal.
  destruct l as [|c l]; [contradiction|]. clear H. simpl. rewrite Nat.sub_0_r.
  revert c. induction l as [|d l IH]; intros c; [reflexivity|].
  simpl length. cbn [nth]. rewrite <- IH. reflexivity.
Qed.

(** X3.  The path [CDirContent] builds for a child is a directory part,
    a backslash, and the name of the child.  The directory part is the
    path of the directory without its last character when that is a
    backslash, the path itself otherwise, except that a final slash is
    turned into a backslash (a second backslash then follows it): the
    constructor tests the argument and not the member.  [IsDir] returns
    the flag the element was built with. *)
Theorem X3_child_path_is_directory_backslash_name
        (szPath szName : wstring) (bIsDir : bool) :
  let last := nth (length szPath - 1) szPath 0%N in
  let front :=
    if N.eqb last backslash then removelast szPath
    else if N.eqb last slash then removelast szPath ++ [backslash]
    else szPath in
  GetPath (mkCDirContent szPath szName bIsDir) = front ++ [backslash] ++ szName
  /\ IsDir (mkCDirContent szPath szName bIsDir) = bIsDir
  /\ length szPath + length szName
     <= length (GetPath (mkCDirContent szPath szName bIsDir))
     <= length szPath + 1 + length szName.
Proof.
  intros last front.
  assert (with_separator szPath = front ++ [backslash]) as Hsep.
  { unfold with_separator, front. fold last.
    destruct (N.eqb_spec last backslash) as [Eb|Eb]; simpl.
    - assert (szPath <> []) as Hne.
      { intros ->. unfold last, backslash in Eb. simpl in Eb. discriminate. }
      destruct (N.eqb_spec last slash) as [Es|_];
        [rewrite Eb in Es; discriminate|].
      rewrite (last_removelast szPath Hne) at 1. fold last. now rewrite Eb.
    - destruct (N.eqb_spec last slash); reflexivity. }
  rewrite GetPath_mkCDirContent, Hsep. split; [now rewrite <- app_assoc|].
  split; [reflexivity|].
  rewrite !length_app. simpl length.
  assert (length szPath <= length front + 1 <= length szPath + 1); [|lia].
  assert (szPath <> [] -> length szPath = length (removelast szPath) + 1)
    as Hlen.
  { intros Hne. rewrite (last_removelast szPath Hne) at 1.
    rewrite length_app. reflexivity. }
  unfold front.
  destruct (N.eqb_spec last backslash) as [Eb|Eb].
  - assert (szPath <> []) as Hne.
    { intros ->. unfold last, backslash in Eb. simpl in Eb. discriminate. }
    specialize (Hlen Hne). lia.
  - destruct (N.eqb_spec last slash) as [Es|Es].
    + assert (szPath <> []) as Hne.
      { intros ->. unfold last, slash in Es. simpl in Es. discriminate. }
      specialize (Hlen Hne). rewrite length_app. simpl. lia.
    + lia.
Qed.

(* ================================================================== *)
(** * The place of the tree *)
(* ================================================================== *)

Lemma no_NUL_c_string (sz : wstring) : no_NUL sz = true <-> c_string sz.
Proof.
  unfold no_NUL, c_string. rewrite forallb_forall, Forall_forall.
  split; intros H c Hc; specialize (H c Hc).
  - intros ->. discriminate.
  - destruct (N.eqb_spec c 0); [contradiction|reflexivity].
Qed.

Lemma c_string_removelast (sz : wstring) : c_string sz -> c_string (removelast sz).
Proof.
  unfold c_string. induction 1 as [|c sz Hc Hsz IH]; simpl; [constructor|].
  destruct sz; [constructor|]. constructor; assumption.
Qed.

Lemma c_string_app (a b : wstring) : c_string a -> c_string b -> c_string (a ++ b).
Proof.
  unfold c_string. intros. apply Forall_app. split; assumption.
Qed.

Lemma c_string_with_separator (szPath : wstring) :
  c_string szPath -> c_string (with_separator szPath).
Proof.
  intros H. unfold with_separator.
  assert (c_string [backslash]) as Hb by (repeat constructor; discriminate).
  pose proof (c_string_removelast szPath H).
  destruct (N.eqb _ slash); destruct (negb _);
    repeat apply c_string_app; assumption.
Qed.

Lemma c_string_strip_trailing (path : wstring) :
  c_string path -> c_string (strip_trailing path).
Proof.
  intros H. unfold strip_trailing.
  destruct (_ || _); [apply c_string_removelast|]; assumption.
Qed.

(** A common beginning without NUL plays no part in the comparison. *)
Lemma wcsicmp_common_prefix (p a b : wstring) :
  c_string p -> _wcsicmp (p ++ a) (p ++ b) = _wcsicmp a b.
Proof.
  induction 1 as [|c p Hc _ IH]; [reflexivity|].
  simpl. apply towlower_not_NUL in Hc.
  destruct (N.eqb_spec (towlower c) 0) as [|_]; [contradiction|].
  rewrite N.eqb_refl. exact IH.
Qed.

Lemma files_in_order_anywhere (n : node) :
  forall szPath szPath',
    well_named n = true -> c_string szPath -> c_string szPath' ->
    files_in_order n szPath = files_in_order n szPath'.
Proof.
  induction n as [data|entries last_error IH] using node_ind;
    intros szPath szPath' Hnames Hp Hp'; [reflexivity|].
  simpl. f_equal.
  pose (R := fun x y : wstring * list byte =>
               snd x = snd y
               /\ exists name, fst x = with_separator szPath ++ name
                               /\ fst y = with_separator szPath' ++ name).
  assert (forall l l', Forall2 R l l' -> map snd l = map snd l') as Hsnd.
  { induction 1 as [|x y l l' [E _] _ IHl]; simpl; [reflexivity|].
    now rewrite E, IHl. }
  apply Hsnd. apply list_sort_together.
  - intros a b c d [_ (na & Ea & Eb)] [_ (nc & Ec & Ed)].
    unfold compare_nocase. rewrite Ea, Eb, Ec, Ed.
    rewrite !wcsicmp_common_prefix by (apply c_string_with_separator; assumption).
    reflexivity.
  - simpl in Hnames. induction IH as [|[name child] es Hc _ IHes]; simpl.
    + constructor.
    + simpl in Hnames. apply andb_prop in Hnames as [Hhere Hnames].
      apply andb_prop in Hhere as [Hname Hchild].
      apply no_NUL_c_string in Hname.
      destruct (is_dot name child); simpl; [apply IHes, Hnames|].
      constructor; [|apply IHes, Hnames].
      unfold child_path. rewrite !GetPath_mkCDirContent. split; simpl.
      * apply Hc; [exact Hchild| |];
          apply c_string_app; try assumption;
          apply c_string_with_separator; assumption.
      * exists name. split; reflexivity.
Qed.

(** X4.  Without names and without exclusion the digest does not depend on
    where the tree is: two runs on the same readable tree, reached by two
    paths that the driver accepts, return 0 and give the same digest.  The
    children are sorted by their full paths, and the common directory part
    of these plays no part in [compare_nocase]. *)
Theorem X4_digest_does_not_depend_on_the_place
        {shlwapi : Shlwapi} {openssl : OpenSSL}
        w prog argv1 argv1' args o n
        (Hparse : parse_args w args no_options = inl o)
        (Hinc : bIncludeNames o = false)
        (Hspecs : excludeSpecList o = [])
        (Hlen : length argv1 <= MAX_PATH - 3)
        (Hlen' : length argv1' <= MAX_PATH - 3)
        (Hc : c_string argv1)
        (Hc' : c_string argv1')
        (Htarget : target w = Some n)
        (Hreadable : readable n = true)
        (Hnames : well_named n = true) :
  exit_status (_tmain w (prog :: argv1 :: args)) = 0%Z
  /\ exit_status (_tmain w (prog :: argv1' :: args)) = 0%Z
  /\ pbDigest (_tmain w (prog :: argv1 :: args))
     = pbDigest (_tmain w (prog :: argv1' :: args)).
Proof.
  destruct (plain_digest w prog argv1 args o n
              Hparse Hinc Hspecs Hlen Htarget Hreadable) as [E1 D1].
  destruct (plain_digest w prog argv1' args o n
              Hparse Hinc Hspecs Hlen' Htarget Hreadable) as [E2 D2].
  repeat split; try assumption.
  rewrite D1, D2. do 2 f_equal.
  apply files_in_order_anywhere; [exact Hnames| |];
    destruct n; simpl; try assumption; apply c_string_strip_trailing; assumption.
Qed.

Lemma X4_digest_does_not_depend_on_the_place_witness :
  let shlwapi := Sample.shlwapi in
  let openssl := Sample.openssl in
  pbDigest (_tmain (Sample.world Sample.scenario)
                   [L "DirHash.exe"; L "C:\t"; L "sha256"])
  = pbDigest (_tmain (Sample.world Sample.scenario)
                     [L "DirHash.exe"; L "D:\Backup\2015\T\"; L "sha256"]).
Proof.
  intros shlwapi openssl.
  refine (proj2 (proj2 (X4_digest_does_not_depend_on_the_place
            (Sample.world Sample.scenario) (L "DirHash.exe")
            (L "C:\t") (L "D:\Backup\2015\T\") [L "sha256"]
            {| outputFile := None; bDontWait := false;
               bIncludeNames := false; excludeSpecList := [];
               pHash := Some Sha256 |}
            Sample.scenario eq_refl eq_refl eq_refl _ _ _ _
            eq_refl eq_refl eq_refl))).
  - unfold MAX_PATH. simpl. lia.
  - unfold MAX_PATH. simpl. lia.
  - apply no_NUL_c_string. reflexivity.
  - apply no_NUL_c_string. reflexivity.
Defined.

(* ================================================================== *)
(** * The order of the listing *)
(* ================================================================== *)

Section SortUnique.
Context {A : Type} (comp : A -> A -> bool).
Hypothesis comp_asym : forall a b, comp a b = true -> comp b a = false.
Hypothesis comp_trans :
  forall a b c, comp b a = false -> comp c b = false -> comp c a = false.

Lemma strictly_sorted_unique (l l' : list A) :
  StronglySorted (fun a b => comp a b = true) l ->
  StronglySorted (fun a b => comp a b = true) l' ->
  Permutation l l' ->
  l = l'.
Proof.
  intros Hl. revert l'. induction Hl as [|a l Hl IH Ha]; intros l' Hl' Hp.
  - apply Permutation_nil in Hp. now subst.
  - destruct l' as [|b l'];
      [apply Permutation_sym, Permutation_nil in Hp; discriminate|].
    inversion Hl' as [|? ? Hl2 Hb]; subst.
    assert (a = b) as ->.
    { assert (In a (b :: l')) as Hina
          by (eapply Permutation_in; [exact Hp|left; reflexivity]).
      assert (In b (a :: l)) as Hinb
          by (eapply Permutation_in;
              [apply Permutation_sym, Hp|left; reflexivity]).
      destruct Hina as [->|Hina]; [reflexivity|].
      destruct Hinb as [->|Hinb]; [reflexivity|].
      rewrite Forall_forall in Ha, Hb.
      specialize (Ha b Hinb). specialize (Hb a Hina).
      apply comp_asym in Ha. congruence. }
    f_equal. apply IH; [exact Hl2|]. eapply Permutation_cons_inv, Hp.
Qed.

Lemma sorted_strictly (s : list A) :
  StronglySorted (not_after comp) s ->
  NoDup s ->
  comparable comp s ->
  StronglySorted (fun a b => comp a b = true) s.
Proof.
  induction 1 as [|a s Hs IH Ha]; intros Hnd Hc; constructor.
  - apply IH; [now inversion Hnd|].
    intros x y Hx Hy. apply Hc; right; assumption.
  - rewrite Forall_forall in Ha |- *. intros y Hy.
    destruct (Hc a y (or_introl eq_refl) (or_intror Hy)) as [->|[H|H]].
    + inversion Hnd; contradiction.
    + exact H.
    + specialize (Ha y Hy). unfold not_after in Ha. congruence.
Qed.

(** Where no two elements tie, the sorted list does not depend on the
    order of the elements. *)
Lemma list_sort_permuted (l l' : list A) :
  NoDup l -> comparable comp l -> Permutation l l' ->
  list_sort comp l = list_sort comp l'.
Proof.
  intros Hnd Hc Hp.
  assert (forall m, Permutation l m ->
                    StronglySorted (fun a b => comp a b = true)
                                   (list_sort comp m)) as Hstrict.
  { intros m Hm. apply sorted_strictly.
    - apply list_sort_strongly_sorted; assumption.
    - eapply Permutation_NoDup; [|exact Hnd].
      eapply Permutation_trans; [exact Hm|apply list_sort_perm].
    - intros x y Hx Hy.
      apply Hc; eapply Permutation_in; try eassumption;
        apply Permutation_sym;
        (eapply Permutation_trans; [exact Hm|apply list_sort_perm]). }
  apply strictly_sorted_unique.
  - apply Hstrict. reflexivity.
  - apply Hstrict, Hp.
  - eapply Permutation_trans; [apply Permutation_sym, list_sort_perm|].
    eapply Permutation_trans; [exact Hp|apply list_sort_perm].
Qed.
End SortUnique.

Section ListingOrder.
Context {shlwapi : Shlwapi}.
Variable bIncludeNames : bool.
Variable excludeSpecList : list wstring.

Lemma Permutation_filter_same {B : Type} (f : B -> bool) (l l' : list B) :
  Permutation l l' -> Permutation (filter f l) (filter f l').
Proof.
  induction 1 as [|x l l' _ IH|x y l|l l' l'' _ IH1 _ IH2]; simpl.
  - constructor.
  - destruct (f x); [constructor|]; exact IH.
  - destruct (f x), (f y); try reflexivity. apply perm_swap.
  - eapply Permutation_trans; eassumption.
Qed.

Lemma untied_items szDirPath (entries : list (wstring * node)) :
  untied szDirPath entries ->
  let items := list_content szDirPath
                 (map (found_of bIncludeNames excludeSpecList) entries) in
  NoDup items /\ comparable content_before items.
Proof.
  intros [Hnd Htri] items. unfold items. rewrite list_content_items.
  set (kept := filter (fun e => negb (is_dot (fst e) (snd e))) entries).
  assert (forall e, In e kept -> In e entries) as Hkept
      by (intros e He; apply filter_In in He; tauto).
  split.
  - assert (NoDup kept) as Hndk by (apply NoDup_filter, Hnd).
    assert (forall e e', In e kept -> In e' kept ->
                         item_of bIncludeNames excludeSpecList szDirPath e
                         = item_of bIncludeNames excludeSpecList szDirPath e' ->
                         e = e')
      as Hinj.
    { intros e e' He He' Heq.
      destruct (Htri e e' (Hkept e He) (Hkept e' He')) as [E|[H|H]];
        [exact E| |];
        exfalso;
        apply (f_equal (fun it : item => GetPath (fst it))) in Heq;
        change (child_path szDirPath (fst e) (snd e)
                = child_path szDirPath (fst e') (snd e')) in Heq;
        rewrite Heq in H;
        unfold compare_nocase in H; rewrite wcsicmp_refl in H;
        discriminate. }
    clear -Hndk Hinj. induction Hndk as [|e l Hnot _ IH]; simpl; constructor.
    + intros Hin. apply in_map_iff in Hin as (e' & Heq & He').
      assert (e' = e) as -> by
          (apply Hinj; [right; exact He'|left; reflexivity|exact Heq]).
      contradiction.
    + apply IH. intros x y Hx Hy. apply Hinj; right; assumption.
  - intros x y Hx Hy.
    apply in_map_iff in Hx as (e & <- & He).
    apply in_map_iff in Hy as (e' & <- & He').
    destruct (Htri e e' (Hkept e He) (Hkept e' He')) as [->|[H|H]]; auto.
Qed.

(** The walker on a directory does not depend on the order in which the
    file system lists its entries, where no two names tie. *)
Lemma HashTree_permuted szDirPath entries entries' last_error s :
  Permutation entries entries' ->
  untied szDirPath entries ->
  HashTree bIncludeNames excludeSpecList (Dir entries last_error) szDirPath s
  = HashTree bIncludeNames excludeSpecList (Dir entries' last_error) szDirPath s.
Proof.
  intros Hp Hu. rewrite !HashTree_Dir. unfold HashDirectory.
  destruct (untied_items szDirPath entries Hu) as [Hnd Hc].
  assert (list_sort content_before
            (list_content szDirPath
               (map (found_of bIncludeNames excludeSpecList) entries))
          = list_sort content_before
              (list_content szDirPath
                 (map (found_of bIncludeNames excludeSpecList) entries')))
    as Hsorted.
  { apply (list_sort_permuted content_before content_before_asym
             content_before_trans); try assumption.
    rewrite !list_content_items.
    apply Permutation_map, Permutation_filter_same, Hp. }
  rewrite Hsorted.
  destruct entries as [|e es], entries' as [|e' es']; try reflexivity.
  - apply Permutation_nil in Hp. discriminate.
  - apply Permutation_sym, Permutation_nil in Hp. discriminate.
Qed.

Lemma reordered_same_root szDirPath t t' argv1 :
  reordered szDirPath t t' -> root_path t argv1 = root_path t' argv1.
Proof.
  destruct 1; reflexivity.
Qed.

Lemma reordered_alike szDirPath t t' :
  reordered szDirPath t t' ->
  alike (HashTree bIncludeNames excludeSpecList t szDirPath)
        (HashTree bIncludeNames excludeSpecList t' szDirPath).
Proof.
  induction 1 as [szDirPath entries entries' last_error Hp Hu
                 |szDirPath pre name child child' post last_error Hre IH].
  - destruct (HashTree_alike bIncludeNames excludeSpecList
                (Dir entries last_error) szDirPath) as (e & b & H & _).
    exists e, b. split; [exact H|].
    intros s. rewrite <- (HashTree_permuted szDirPath entries entries'
                            last_error s Hp Hu). apply H.
  - rewrite !HashTree_Dir. apply HashDirectory_alike.
    rewrite !map_app. apply Forall2_app; [apply found_of_all_alike|].
    simpl. constructor; [|apply found_of_all_alike].
    assert (is_dir child = is_dir child') as Ed by (destruct Hre; reflexivity).
    repeat split; simpl; [exact Ed|exact IH].
Qed.
End ListingOrder.

Section RunsOnAlikeTrees.
Context {shlwapi : Shlwapi} {openssl : OpenSSL}.

(** Two objects that hash alike give runs with the same exit status and
    the same digest. *)
Lemma tmain_alike w prog argv1 args o t t' :
  parse_args w args no_options = inl o ->
  target w = Some t ->
  root_path t argv1 = root_path t' argv1 ->
  alike (HashTree (bIncludeNames o) (excludeSpecList o) t (root_path t argv1))
        (HashTree (bIncludeNames o) (excludeSpecList o) t' (root_path t argv1)) ->
  exit_status (_tmain w (prog :: argv1 :: args))
  = exit_status (_tmain (with_target w t') (prog :: argv1 :: args))
  /\ pbDigest (_tmain w (prog :: argv1 :: args))
     = pbDigest (_tmain (with_target w t') (prog :: argv1 :: args)).
Proof.
  intros Hparse Htarget Hroot Halike. unfold _tmain.
  rewrite parse_args_with_target, Hparse, Htarget.
  destruct (MAX_PATH - 3 <? StringCchLength argv1 MAX_PATH);
    [split; reflexivity|].
  cbn [target with_target]. apply report_alike; assumption.
Qed.
End RunsOnAlikeTrees.

(** X5.  The result does not depend on the order in which the file system
    lists a directory, as long as no two of its entries have names that
    are equal up to case: the walker returns the same code and leaves the
    same state, and a run on a tree where one directory, at any depth, is
    listed in another order has the same exit status and the same
    digest.  (Entries that tie keep the order of the listing: the sort is
    stable.) *)
Theorem X5_listing_order_does_not_matter
        {shlwapi : Shlwapi} {openssl : OpenSSL} :
  (forall inc specs szDirPath entries entries' last_error s,
      Permutation entries entries' ->
      untied szDirPath entries ->
      HashTree inc specs (Dir entries last_error) szDirPath s
      = HashTree inc specs (Dir entries' last_error) szDirPath s)
  /\ (forall w prog argv1 args o t t',
         parse_args w args no_options = inl o ->
         target w = Some t ->
         reordered (root_path t argv1) t t' ->
         exit_status (_tmain w (prog :: argv1 :: args))
         = exit_status (_tmain (with_target w t') (prog :: argv1 :: args))
         /\ pbDigest (_tmain w (prog :: argv1 :: args))
            = pbDigest (_tmain (with_target w t') (prog :: argv1 :: args))).
Proof.
  split.
  - intros. now apply HashTree_permuted.
  - intros w prog argv1 args o t t' Hparse Htarget Hre.
    apply (tmain_alike w prog argv1 args o t t' Hparse Htarget).
    + eapply reordered_same_root, Hre.
    + apply reordered_alike, Hre.
Qed.

(** The scenario listed with a.txt first instead of sub. *)
Lemma X5_listing_order_does_not_matter_witness :
  let shlwapi := Sample.shlwapi in
  let openssl := Sample.openssl in
  let sub := (L "sub", directory [(L "b.txt", file "world")]) in
  let a := (L "a.txt", file "hello") in
  let argv := [L "DirHash.exe"; L "C:\t"; L "-hashnames"] in
  pbDigest (_tmain (Sample.world (Dir [dot; dotdot; sub; a] ERROR_NO_MORE_FILES))
                   argv)
  = pbDigest (_tmain (Sample.world (Dir [a; dot; sub; dotdot] ERROR_NO_MORE_FILES))
                     argv).
Proof.
  intros shlwapi openssl sub a argv.
  refine (proj2 (proj2 X5_listing_order_does_not_matter
                   (Sample.world (Dir [dot; dotdot; sub; a] ERROR_NO_MORE_FILES))
                   (L "DirHash.exe") (L "C:\t") [L "-hashnames"]
                   {| outputFile := None; bDontWait := false;
                      bIncludeNames := true; excludeSpecList := [];
                      pHash := None |}
                   _ (Dir [a; dot; sub; dotdot] ERROR_NO_MORE_FILES)
                   eq_refl eq_refl _)).
  apply reordered_here.
  - apply Permutation_sym.
    apply (Permutation_cons_app [dot; dotdot; sub] [] a).
    apply perm_skip.
    apply (Permutation_cons_app [dotdot] [] sub).
    reflexivity.
  - split.
    + repeat constructor; simpl; intuition discriminate.
    + intros e e' He He'. simpl in He, He'.
      repeat match goal with
             | H : _ \/ _ |- _ => destruct H as [<-|H]
             | H : False |- _ => destruct H
             end;
        first [left; reflexivity
              |right; left; reflexivity
              |right; right; reflexivity].
Defined.

(* ================================================================== *)
(** * A separator at the end of the input path *)
(* ================================================================== *)

Lemma strip_trailing_separator (path : wstring) (sep : wchar) :
  sep = backslash \/ sep = slash ->
  strip_trailing (path ++ [sep]) = path.
Proof.
  intros Hsep. unfold strip_trailing.
  rewrite length_app. simpl length.
  replace (length path + 1 - 1) with (length path) by lia.
  rewrite app_nth2, Nat.sub_diag by lia. simpl nth.
  rewrite removelast_last.
  destruct Hsep as [-> | ->]; reflexivity.
Qed.

Section TrailingSeparator.
Context {shlwapi : Shlwapi} {openssl : OpenSSL}.

(** The same object reached through two spellings of its path that the
    walker receives as one. *)
Lemma report_same_root o argv1 argv1' n :
  root_path n argv1 = root_path n argv1' ->
  exit_status (hash_and_report o argv1 n)
  = exit_status (hash_and_report o argv1' n)
  /\ pbDigest (hash_and_report o argv1 n) = pbDigest (hash_and_report o argv1' n).
Proof.
  intros Hroot.
  destruct (HashTree_alike (bIncludeNames o) (excludeSpecList o) n
                           (root_path n argv1)) as (e & b & H & _).
  destruct (H (initial o argv1)) as [E1 E2].
  destruct (H (initial o argv1')) as [E1' E2'].
  rewrite Hroot in E1', E2' at 1.
  fold (walk o argv1 n) in E1, E2. fold (walk o argv1' n) in E1', E2'.
  destruct (walk o argv1 n) as [d s] eqn:Hw.
  destruct (walk o argv1' n) as [d' s'] eqn:Hw'.
  simpl in *. subst d d'.
  destruct (Z.eq_dec e 0) as [->|He].
  - rewrite (report_success o argv1 n s Hw),
            (report_success o argv1' n s' Hw').
    simpl. now rewrite E2, E2'.
  - rewrite (report_failure o argv1 n e s Hw He),
            (report_failure o argv1' n e s' Hw' He).
    split; reflexivity.
Qed.
End TrailingSeparator.

(** A path of 258 or 259 characters is rejected. *)
Lemma tmain_rejects {shlwapi : Shlwapi} {openssl : OpenSSL}
      w prog argv1 args o :
  parse_args w args no_options = inl o ->
  MAX_PATH - 3 < length argv1 < MAX_PATH ->
  exit_status (_tmain w (prog :: argv1 :: args)) = (-1)%Z
  /\ pbDigest (_tmain w (prog :: argv1 :: args)) = None.
Proof.
  intros H Hlen. unfold _tmain, StringCchLength. rewrite H.
  destruct (Nat.ltb_spec (length argv1) MAX_PATH); [|lia].
  destruct (Nat.ltb_spec (MAX_PATH - 3) (length argv1)); [|lia].
  split; reflexivity.
Qed.

(** X6.  Let [path] be the path of a directory that does not itself end
    in a backslash or a slash.  A backslash or a slash added at its end
    makes no difference to the exit status and to the digest, with names
    in the hash or without and whatever the patterns, unless the path has
    exactly [MAX_PATH - 3] = 257 or [MAX_PATH - 1] = 259 characters:
    [_tmain] takes the separator off before it calls [HashDirectory], so
    that the names that are hashed and matched are the same, but it checks
    the length before.  With 257 characters the path itself is accepted
    and the path with the separator is rejected with status -1 and no
    digest; with 259 characters the path itself is rejected in that way,
    and the path with the separator, for which [StringCchLength] fails, is
    hashed. *)
Theorem X6_trailing_separator_makes_no_difference
        {shlwapi : Shlwapi} {openssl : OpenSSL}
        w prog path sep args o entries last_error
        (Hparse : parse_args w args no_options = inl o)
        (Htarget : target w = Some (Dir entries last_error))
        (Hsep : sep = backslash \/ sep = slash)
        (Hpath : strip_trailing path = path) :
  (length path <> MAX_PATH - 3 ->
   length path <> MAX_PATH - 1 ->
   exit_status (_tmain w (prog :: (path ++ [sep]) :: args))
   = exit_status (_tmain w (prog :: path :: args))
   /\ pbDigest (_tmain w (prog :: (path ++ [sep]) :: args))
      = pbDigest (_tmain w (prog :: path :: args)))
  /\ (length path = MAX_PATH - 3 ->
      exit_status (_tmain w (prog :: (path ++ [sep]) :: args)) = (-1)%Z
      /\ pbDigest (_tmain w (prog :: (path ++ [sep]) :: args)) = None
      /\ _tmain w (prog :: path :: args)
         = hash_and_report o path (Dir entries last_error))
  /\ (length path = MAX_PATH - 1 ->
      exit_status (_tmain w (prog :: path :: args)) = (-1)%Z
      /\ pbDigest (_tmain w (prog :: path :: args)) = None
      /\ _tmain w (prog :: (path ++ [sep]) :: args)
         = hash_and_report o (path ++ [sep]) (Dir entries last_error)).
Proof.
  assert (length (path ++ [sep]) = length path + 1) as Hlonger
      by (rewrite length_app; reflexivity).
  assert (root_path (Dir entries last_error) (path ++ [sep])
          = root_path (Dir entries last_error) path) as Hroot
      by (simpl; now rewrite strip_trailing_separator, Hpath).
  split; [|split].
  - intros H257 H259.
    destruct (Nat.le_gt_cases (length path + 1) (MAX_PATH - 3)) as [Hshort|Hlong].
    + rewrite (tmain_accepts w prog (path ++ [sep]) args o _ Hparse)
        by (try exact Htarget; lia).
      rewrite (tmain_accepts w prog path args o _ Hparse)
        by (try exact Htarget; lia).
      apply report_same_root, Hroot.
    + destruct (Nat.le_gt_cases MAX_PATH (length path)) as [Hhuge|Hmid].
      * rewrite (tmain_long_path w prog (path ++ [sep]) args o Hparse)
          by lia.
        rewrite (tmain_long_path w prog path args o Hparse) by exact Hhuge.
        rewrite Htarget. apply report_same_root, Hroot.
      * destruct (tmain_rejects w prog (path ++ [sep]) args o Hparse)
          as [E1 E2]; [unfold MAX_PATH in *; lia|].
        destruct (tmain_rejects w prog path args o Hparse)
          as [E3 E4]; [unfold MAX_PATH in *; lia|].
        split; [exact (eq_trans E1 (eq_sym E3))|exact (eq_trans E2 (eq_sym E4))].
  - intros H257.
    destruct (tmain_rejects w prog (path ++ [sep]) args o Hparse)
      as [E1 E2]; [unfold MAX_PATH in *; lia|].
    split; [exact E1|]. split; [exact E2|].
    apply tmain_accepts; [exact Hparse|lia|exact Htarget].
  - intros H259.
    destruct (tmain_rejects w prog path args o Hparse)
      as [E1 E2]; [unfold MAX_PATH in *; lia|].
    split; [exact E1|]. split; [exact E2|].
    rewrite (tmain_long_path w prog (path ++ [sep]) args o Hparse)
      by (unfold MAX_PATH in *; lia).
    now rewrite Htarget.
Qed.

Lemma X6_trailing_separator_makes_no_difference_witness :
  let shlwapi := Sample.shlwapi in
  let openssl := Sample.openssl in
  pbDigest (_tmain (Sample.world Sample.scenario)
                   [L "DirHash.exe"; L "C:\t" ++ [slash]; L "-hashnames"])
  = pbDigest (_tmain (Sample.world Sample.scenario)
                     [L "DirHash.exe"; L "C:\t"; L "-hashnames"]).
Proof.
  intros shlwapi openssl.
  refine (proj2 (proj1 (X6_trailing_separator_makes_no_difference
                   (Sample.world Sample.scenario) (L "DirHash.exe") (L "C:\t")
                   slash [L "-hashnames"]
                   {| outputFile := None; bDontWait := false;
                      bIncludeNames := true; excludeSpecList := [];
                      pHash := None |}
                   _ _ eq_refl eq_refl _ eq_refl) _ _)).
  - right. reflexivity.
  - unfold MAX_PATH. simpl. lia.
  - unfold MAX_PATH. simpl. lia.
Defined.

(* ================================================================== *)
(** * The command line *)
(* ================================================================== *)

Lemma wstr_eqb_spec (a b : wstring) : reflect (a = b) (wstr_eqb a b).
Proof.
  revert b. induction a as [|c a IH]; intros [|d b]; simpl;
    try (constructor; congruence).
  destruct (N.eqb_spec c d) as [->|Hcd]; simpl.
  - destruct (IH b) as [->|Hab]; constructor; congruence.
  - constructor. congruence.
Qed.

(** Induction that follows the loop over the arguments: a step consumes
    one argument, or a switch and its operand. *)
Lemma args_ind (P : list wstring -> Prop) :
  P [] ->
  (forall arg rest,
      P rest ->
      (forall operand rest', rest = operand :: rest' -> P rest') ->
      P (arg :: rest)) ->
  forall args, P args.
Proof.
  intros Hnil Hstep.
  assert (forall k args, length args <= k -> P args) as H.
  { induction k as [|k IH]; intros [|arg rest] Hk; simpl in Hk;
      try exact Hnil; try lia.
    apply Hstep.
    - apply IH. lia.
    - intros operand rest' ->. apply IH. simpl in Hk. lia. }
  intros args. apply (H (length args)). lia.
Qed.

Lemma parse_args_app w (front back : list wstring) :
  forall o o',
    parse_args w front o = inl o' ->
    parse_args w (front ++ back) o = parse_args w back o'.
Proof.
  induction front as [|arg rest IH1 IH2] using args_ind; intros o o' H.
  - simpl in H. injection H as <-. reflexivity.
  - simpl in H |- *.
    destruct (wstr_eqb arg (L "-t")).
    { destruct rest as [|name rest']; [discriminate|]. simpl.
      destruct (can_append w name); [|discriminate].
      eapply IH2; [reflexivity|exact H]. }
    destruct (wstr_eqb arg (L "-nowait")); [eapply IH1, H|].
    destruct (wstr_eqb arg (L "-hashnames")); [eapply IH1, H|].
    destruct (wstr_eqb arg (L "-exclude")).
    { destruct rest as [|spec rest']; [discriminate|]. simpl.
      eapply IH2; [reflexivity|exact H]. }
    destruct (GetHash arg); [eapply IH1, H|discriminate].
Qed.

(** X7.  Arguments are read from left to right and a command line that
    is accepted can be continued: when the switches [front] are accepted
    and leave the options [o'], the command line [front ++ back] is read
    as [back] is from [o'].  In particular a switch that is repeated
    later takes effect after the earlier ones. *)
Theorem X7_command_line_is_read_in_sequence
        w (front back : list wstring) o o'
        (Hfront : parse_args w front o = inl o') :
  parse_args w (front ++ back) o = parse_args w back o'.
Proof.
  now apply parse_args_app.
Qed.

Lemma X7_command_line_is_read_in_sequence_witness :
  parse_args (Sample.world Sample.scenario)
             ([L "md5"; L "-exclude"; L "*.tmp"] ++ [L "SHA512"; L "-nowait"])
             no_options
  = parse_args (Sample.world Sample.scenario) [L "SHA512"; L "-nowait"]
               {| outputFile := None; bDontWait := false;
                  bIncludeNames := false; excludeSpecList := [L "*.tmp"];
                  pHash := Some Md5 |}.
Proof.
  apply X7_command_line_is_read_in_sequence. reflexivity.
Defined.

Lemma parse_args_error_waits w (args : list wstring) :
  forall o text,
    parse_args w args o = inr text ->
    exists before, text = before ++ WaitForExit false.
Proof.
  induction args as [|arg rest IH1 IH2] using args_ind; intros o text H.
  - discriminate.
  - cbn [parse_args] in H.
    destruct (wstr_eqb arg (L "-t")).
    { destruct rest as [|name rest'].
      - exists (lines ["Error: Missing argument for switch -t"; ""]%string
                ++ ShowUsage).
        rewrite <- app_assoc. injection H as <-. reflexivity.
      - destruct (can_append w name).
        + eapply IH2; [reflexivity|exact H].
        + exists (lines ["Failed to open the result file for writing!"]%string).
          injection H as <-. reflexivity. }
    destruct (wstr_eqb arg (L "-nowait")); [eapply IH1, H|].
    destruct (wstr_eqb arg (L "-hashnames")); [eapply IH1, H|].
    destruct (wstr_eqb arg (L "-exclude")).
    { destruct rest as [|spec rest'].
      - exists (lines ["Error: Missing argument for switch -exclude"; ""]%string
                ++ ShowUsage).
        rewrite <- app_assoc. injection H as <-. reflexivity.
      - eapply IH2; [reflexivity|exact H]. }
    destruct (GetHash arg); [eapply IH1, H|].
    exists (L "Error: Argument " ++ [quote] ++ arg ++ [quote]
            ++ L " not recognized" ++ [newline; newline] ++ ShowUsage).
    rewrite <- !app_assoc. injection H as <-. reflexivity.
Qed.

(** X8.  A usage error (a switch without its operand, a token that is no
    algorithm, a result file that does not open) ends the run with exit
    status 1 and no digest, and the run waits for ENTER before it exits
    even when -nowait was given: [WaitForExit] is called without its
    argument on these paths. *)
Theorem X8_usage_errors_wait_for_ENTER
        {shlwapi : Shlwapi} {openssl : OpenSSL}
        w prog argv1 args text
        (Herror : parse_args w args no_options = inr text) :
  exit_status (_tmain w (prog :: argv1 :: args)) = 1%Z
  /\ pbDigest (_tmain w (prog :: argv1 :: args)) = None
  /\ written (_tmain w (prog :: argv1 :: args)) = None
  /\ exists before,
      stdout (_tmain w (prog :: argv1 :: args))
      = before ++ [newline; newline] ++ L "Press ENTER to exit the program ...".
Proof.
  unfold _tmain. rewrite Herror. repeat split.
  destruct (parse_args_error_waits w args no_options text Herror) as (b & ->).
  exists (banner ++ b). unfold early_exit. cbn [stdout].
  rewrite <- app_assoc. reflexivity.
Qed.

Lemma X8_usage_errors_wait_for_ENTER_witness :
  let shlwapi := Sample.shlwapi in
  let openssl := Sample.openssl in
  exit_status (_tmain (Sample.world Sample.scenario)
                      [L "DirHash.exe"; L "C:\t"; L "-nowait"; L "sha3"]) = 1%Z.
Proof.
  intros shlwapi openssl.
  refine (proj1 (X8_usage_errors_wait_for_ENTER
                   (Sample.world Sample.scenario) (L "DirHash.exe") (L "C:\t")
                   [L "-nowait"; L "sha3"] _ eq_refl)).
Defined.

Lemma parse_args_accumulates w (args : list wstring) :
  forall o o',
    parse_args w args o = inl o' ->
    (bDontWait o = true -> bDontWait o' = true)
    /\ (bDontWait o' = true -> bDontWait o = true \/ In (L "-nowait") args)
    /\ (bIncludeNames o = true -> bIncludeNames o' = true)
    /\ (bIncludeNames o' = true
        -> bIncludeNames o = true \/ In (L "-hashnames") args)
    /\ (exists more,
           excludeSpecList o' = excludeSpecList o ++ more /\ incl more args)
    /\ (forall name,
           outputFile o' = Some name ->
           outputFile o = Some name
           \/ (In name args /\ can_append w name = true))
    /\ (forall h,
           pHash o' = Some h ->
           pHash o = Some h \/ exists arg, In arg args /\ GetHash arg = Some h).
Proof.
  induction args as [|arg rest IH1 IH2] using args_ind; intros o o' H.
  - injection H as <-. repeat split; auto.
    exists []. split; [now rewrite app_nil_r|intros x []].
  - cbn [parse_args] in H.
    destruct (wstr_eqb arg (L "-t")).
    { destruct rest as [|name rest']; [discriminate|].
      destruct (can_append w name) eqn:Hopen; [|discriminate].
      destruct (IH2 name rest' eq_refl _ _ H)
        as (A & B & C & D & (more & E & Hincl) & F & G).
      cbn [outputFile bDontWait bIncludeNames excludeSpecList pHash] in *.
      repeat split; try assumption.
      - intros Hw. destruct (B Hw) as [?|?]; [auto|right; simpl; auto].
      - intros Hn. destruct (D Hn) as [?|?]; [auto|right; simpl; auto].
      - exists more. split; [exact E|].
        intros x Hx. right. right. apply Hincl, Hx.
      - intros f Hf. destruct (F f Hf) as [Hf'|[Hin Hok]].
        + injection Hf' as <-. right. split; [simpl; auto|exact Hopen].
        + right. split; [simpl; auto|exact Hok].
      - intros h Hh. destruct (G h Hh) as [?|(x & Hx & Hg)]; [auto|].
        right. exists x. split; [simpl; auto|exact Hg]. }
    destruct (wstr_eqb_spec arg (L "-nowait")) as [->|_].
    { destruct (IH1 _ _ H) as (A & B & C & D & (more & E & Hincl) & F & G).
      cbn [outputFile bDontWait bIncludeNames excludeSpecList pHash] in *.
      repeat split; try assumption; auto.
      - intros _. right. left. reflexivity.
      - intros Hn. destruct (D Hn) as [?|?]; [auto|right; simpl; auto].
      - exists more. split; [exact E|]. intros x Hx. right. apply Hincl, Hx.
      - intros f Hf. destruct (F f Hf) as [?|[Hin Hok]]; [auto|].
        right. split; [simpl; auto|exact Hok].
      - intros h Hh. destruct (G h Hh) as [?|(x & Hx & Hg)]; [auto|].
        right. exists x. split; [simpl; auto|exact Hg]. }
    destruct (wstr_eqb_spec arg (L "-hashnames")) as [->|_].
    { destruct (IH1 _ _ H) as (A & B & C & D & (more & E & Hincl) & F & G).
      cbn [outputFile bDontWait bIncludeNames excludeSpecList pHash] in *.
      repeat split; try assumption; auto.
      - intros Hw. destruct (B Hw) as [?|?]; [auto|right; simpl; auto].
      - intros _. right. left. reflexivity.
      - exists more. split; [exact E|]. intros x Hx. right. apply Hincl, Hx.
      - intros f Hf. destruct (F f Hf) as [?|[Hin Hok]]; [auto|].
        right. split; [simpl; auto|exact Hok].
      - intros h Hh. destruct (G h Hh) as [?|(x & Hx & Hg)]; [auto|].
        right. exists x. split; [simpl; auto|exact Hg]. }
    destruct (wstr_eqb arg (L "-exclude")).
    { destruct rest as [|spec rest']; [discriminate|].
      destruct (IH2 spec rest' eq_refl _ _ H)
        as (A & B & C & D & (more & E & Hincl) & F & G).
      cbn [outputFile bDontWait bIncludeNames excludeSpecList pHash] in *.
      repeat split; try assumption.
      - intros Hw. destruct (B Hw) as [?|?]; [auto|right; simpl; auto].
      - intros Hn. destruct (D Hn) as [?|?]; [auto|right; simpl; auto].
      - exists (spec :: more). split; [now rewrite E, <- app_assoc|].
        intros x [<-|Hx]; [simpl; auto|]. right. right. apply Hincl, Hx.
      - intros f Hf. destruct (F f Hf) as [?|[Hin Hok]]; [auto|].
        right. split; [simpl; auto|exact Hok].
      - intros h Hh. destruct (G h Hh) as [?|(x & Hx & Hg)]; [auto|].
        right. exists x. split; [simpl; auto|exact Hg]. }
    destruct (GetHash arg) as [h0|] eqn:Hget; [|discriminate].
    destruct (IH1 _ _ H) as (A & B & C & D & (more & E & Hincl) & F & G).
    cbn [outputFile bDontWait bIncludeNames excludeSpecList pHash] in *.
    repeat split; try assumption.
    + intros Hw. destruct (B Hw) as [?|?]; [auto|right; simpl; auto].
    + intros Hn. destruct (D Hn) as [?|?]; [auto|right; simpl; auto].
    + exists more. split; [exact E|]. intros x Hx. right. apply Hincl, Hx.
    + intros f Hf. destruct (F f Hf) as [?|[Hin Hok]]; [auto|].
      right. split; [simpl; auto|exact Hok].
    + intros h Hh. destruct (G h Hh) as [Hh'|(x & Hx & Hg)].
      * injection Hh' as <-. right. exists arg. split; [simpl; auto|exact Hget].
      * right. exists x. split; [simpl; auto|exact Hg].
Qed.

(** X9.  What the loop over the arguments leaves in the locals of
    [_tmain] comes from the command line and is never taken back: once
    set, -nowait and -hashnames stay set, and they are set only when the
    switch is among the arguments; exclusion patterns are only added, at
    the end of the list and in the order of the arguments; the result
    file is one that could be opened; the algorithm is one that an
    argument names. *)
Theorem X9_options_come_from_the_switches
        w (args : list wstring) o o'
        (Hparse : parse_args w args o = inl o') :
  (bDontWait o = true -> bDontWait o' = true)
  /\ (bDontWait o' = true -> bDontWait o = true \/ In (L "-nowait") args)
  /\ (bIncludeNames o = true -> bIncludeNames o' = true)
  /\ (bIncludeNames o' = true
      -> bIncludeNames o = true \/ In (L "-hashnames") args)
  /\ (exists more,
         excludeSpecList o' = excludeSpecList o ++ more /\ incl more args)
  /\ (forall name,
         outputFile o' = Some name ->
         outputFile o = Some name
         \/ (In name args /\ can_append w name = true))
  /\ (forall h,
         pHash o' = Some h ->
         pHash o = Some h \/ exists arg, In arg args /\ GetHash arg = Some h).
Proof.
  now apply parse_args_accumulates.
Qed.

Lemma X9_options_come_from_the_switches_witness :
  exists more,
    [L "*.tmp"; L "*.bak"] = [] ++ more
    /\ incl more [L "-exclude"; L "*.tmp"; L "md5"; L "-exclude"; L "*.bak"].
Proof.
  exact (proj1 (proj2 (proj2 (proj2 (proj2
           (X9_options_come_from_the_switches
              (Sample.world Sample.scenario)
              [L "-exclude"; L "*.tmp"; L "md5"; L "-exclude"; L "*.bak"]
              no_options
              {| outputFile := None; bDontWait := false;
                 bIncludeNames := false;
                 excludeSpecList := [L "*.tmp"; L "*.bak"];
                 pHash := Some Md5 |}
              eq_refl)))))).
Defined.

(* ================================================================== *)
(** * Exit status and digest *)
(* ================================================================== *)

Section Codes.
Context {shlwapi : Shlwapi}.
Variable bIncludeNames : bool.
Variable excludeSpecList : list wstring.

Lemma visit_all_code_in_range (l : list item) :
  Forall (fun it => forall s, (0 <= fst (visit it s) < 2 ^ 32)%Z) l ->
  forall s, (0 <= fst (visit_all l s) < 2 ^ 32)%Z.
Proof.
  induction 1 as [|it l Hit _ IH]; intros s; simpl; [lia|].
  specialize (Hit s). unfold visit in Hit.
  destruct (snd it (GetPath (fst it)) s) as [dwError s']. simpl in Hit.
  destruct (dwError =? 0)%Z; simpl; [apply IH|exact Hit].
Qed.

(** The walker returns a [DWORD]. *)
Lemma HashTree_code_in_range (n : node) :
  dword_codes n = true ->
  forall szPath s,
    (0 <= fst (HashTree bIncludeNames excludeSpecList n szPath s) < 2 ^ 32)%Z.
Proof.
  induction n as [data|entries last_error IH] using node_ind;
    intros Hcodes szPath s.
  - simpl. unfold HashFile. destruct (skipped excludeSpecList szPath);
      [simpl; lia|].
    destruct data; cbn [fst]; [lia|].
    change (DWORD_of (-1)) with 4294967295%Z. lia.
  - simpl in Hcodes. apply andb_prop in Hcodes as [Hle Hall].
    apply andb_prop in Hle as [Hlo Hhi].
    apply Z.leb_le in Hlo. apply Z.ltb_lt in Hhi.
    rewrite HashTree_Dir. unfold HashDirectory.
    destruct (skipped excludeSpecList szPath); [simpl; lia|].
    destruct (map (found_of bIncludeNames excludeSpecList) entries) eqn:Hmap;
      [simpl; lia|].
    destruct (negb (last_error =? ERROR_NO_MORE_FILES)%Z); [simpl; lia|].
    rewrite <- Hmap. apply visit_all_code_in_range.
    eapply Permutation_Forall; [apply list_sort_perm|].
    rewrite list_content_items. rewrite Forall_forall. intros it Hit s'.
    apply in_map_iff in Hit as ([name child] & <- & He).
    apply filter_In in He as [He _].
    rewrite Forall_forall in IH. rewrite forallb_forall in Hall.
    unfold visit, item_of. simpl.
    apply (IH (name, child) He). exact (Hall (name, child) He).
Qed.
End Codes.

Lemma int_of_DWORD_zero (e : DWORD) :
  (0 <= e < 2 ^ 32)%Z -> (int_of_DWORD e = 0%Z <-> e = 0%Z).
Proof.
  intros He. unfold int_of_DWORD. rewrite Z.mod_small by exact He.
  destruct (Z.ltb_spec e (2 ^ 31)); lia.
Qed.

(** X10.  The exit status tells whether there is a digest: whatever the
    command line and the file system (its error codes being DWORDs), the
    run returns 0 exactly when it called [Final] and printed a digest.  No
    failure, of the usage, of the checks of the path or of the traversal,
    ends with status 0, and no success with another status. *)
Theorem X10_exit_status_is_zero_iff_a_digest_is_printed
        {shlwapi : Shlwapi} {openssl : OpenSSL}
        (w : World) (argv : list wstring)
        (Hcodes : forall n, target w = Some n -> dword_codes n = true) :
  exit_status (_tmain w argv) = 0%Z <-> pbDigest (_tmain w argv) <> None.
Proof.
  assert (forall status text file,
             status <> 0%Z ->
             exit_status (early_exit status text file) = 0%Z
             <-> pbDigest (early_exit status text file) <> None) as Hearly.
  { intros status text file Hs. simpl. split; [contradiction|congruence]. }
  unfold _tmain.
  destruct argv as [|prog [|argv1 args]]; try (apply Hearly; lia).
  destruct (parse_args w args no_options) as [o|text]; [|apply Hearly; lia].
  destruct (MAX_PATH - 3 <? StringCchLength argv1 MAX_PATH);
    [apply Hearly; lia|].
  destruct (target w) as [n|] eqn:Htarget; [|apply Hearly; lia].
  specialize (Hcodes n eq_refl).
  pose proof (HashTree_code_in_range (bIncludeNames o) (excludeSpecList o) n
                Hcodes (root_path n argv1) (initial o argv1)) as Hrange.
  fold (walk o argv1 n) in Hrange.
  destruct (walk o argv1 n) as [e s] eqn:Hwalk. simpl in Hrange.
  destruct (Z.eq_dec e 0) as [->|He].
  - rewrite (report_success o argv1 n s Hwalk). simpl.
    split; [discriminate|reflexivity].
  - rewrite (report_failure o argv1 n e s Hwalk He). simpl.
    rewrite (int_of_DWORD_zero e Hrange). split; [contradiction|congruence].
Qed.

Lemma X10_exit_status_is_zero_iff_a_digest_is_printed_witness :
  let shlwapi := Sample.shlwapi in
  let openssl := Sample.openssl in
  let argv := [L "DirHash.exe"; L "C:\t"; L "md5"] in
  exit_status (_tmain (Sample.world Sample.scenario) argv) = 0%Z
  <-> pbDigest (_tmain (Sample.world Sample.scenario) argv) <> None.
Proof.
  intros shlwapi openssl argv.
  apply X10_exit_status_is_zero_iff_a_digest_is_printed.
  intros n Hn. injection Hn as <-. reflexivity.
Defined.

(* ================================================================== *)
(** * The digest as text *)
(* ================================================================== *)

Lemma unhex_hex2 (b : byte) (text : wstring) :
  unhex (hex2 b ++ text) = b :: unhex text.
Proof.
  destruct b; reflexivity.
Qed.

Lemma unhex_hex_bytes (bytes : list byte) : unhex (flat_map hex2 bytes) = bytes.
Proof.
  induction bytes as [|b bytes IH]; [reflexivity|].
  cbn [flat_map]. rewrite unhex_hex2, IH. reflexivity.
Qed.

(** X11.  The digest can be read back from what the loop over [pbDigest]
    prints: decoding the pairs of hexadecimal digits gives the bytes of
    the digest.  So two result lines for the same algorithm are equal only
    when the digests are. *)
Theorem X11_digest_can_be_read_back {shlwapi : Shlwapi} {openssl : OpenSSL} :
  (forall bytes, unhex (flat_map hex2 bytes) = bytes)
  /\ (forall h m, unhex (hex_digest h (digest h m)) = digest h m)
  /\ (forall h m m',
         stdout_result h (digest h m) = stdout_result h (digest h m') ->
         digest h m = digest h m').
Proof.
  split; [exact unhex_hex_bytes|]. split.
  - intros h m. rewrite hex_digest_all. apply unhex_hex_bytes.
  - intros h m m' H. unfold stdout_result in H.
    rewrite !hex_digest_all in H.
    repeat apply app_inv_head in H. apply app_inv_tail in H.
    rewrite <- (unhex_hex_bytes (digest h m)), H. apply unhex_hex_bytes.
Qed.

(* ================================================================== *)
(** * What the walker prints *)
(* ================================================================== *)

Lemma last_app_right (l l' : list wstring) :
  l' <> [] -> last (l ++ l') [] = last l' [].
Proof.
  intros Hne. induction l as [|x l IH]; [reflexivity|].
  simpl. rewrite IH. destruct (l ++ l') eqn:E; [|reflexivity].
  apply app_eq_nil in E as [_ ->]. contradiction.
Qed.

Section Reports.
Context {shlwapi : Shlwapi}.
Variable bIncludeNames : bool.
Variable excludeSpecList : list wstring.

Lemma visit_all_reports (l : list item) :
  Forall (fun it => forall s, reports (GetPath (fst it)) s (visit it s)) l ->
  forall s, loop_reports s (visit_all l s).
Proof.
  induction 1 as [|it l Hit _ IH]; intros s.
  - exists []. simpl. rewrite app_nil_r. repeat split; congruence.
  - simpl. destruct (Hit s) as (m1 & Hv & Hok & Hfail). unfold visit in *.
    destruct (snd it (GetPath (fst it)) s) as [dwError s1]. simpl in *.
    destruct (Z.eqb_spec dwError 0) as [->|Hd]; simpl.
    + destruct (IH s1) as (m2 & Hv2 & Hok2 & Hfail2).
      exists ((GetPath (fst it) :: m1) ++ m2). repeat split.
      * rewrite Hv2, Hv, <- app_assoc. reflexivity.
      * intros H0. rewrite (Hok2 H0). now apply Hok.
      * apply Hfail2 in H as [Hne _]. intros E.
        apply app_eq_nil in E as [_ E]. contradiction.
      * destruct (Hfail2 H) as (Hne & text & Hc & Hm).
        exists text. split; [rewrite Hc, Hok; reflexivity|].
        rewrite last_app_right by exact Hne. exact Hm.
    + exists (GetPath (fst it) :: m1). repeat split.
      * exact Hv.
      * contradiction.
      * discriminate.
      * apply Hfail, Hd.
Qed.

Lemma HashFile_reports szFilePath data s :
  reports szFilePath s (HashFile bIncludeNames excludeSpecList szFilePath data s).
Proof.
  unfold HashFile. exists [].
  destruct (skipped excludeSpecList szFilePath); [repeat split; simpl; congruence|].
  rewrite hash_name_appends. destruct data as [bytes|].
  - rewrite read_file_all. repeat split; simpl; congruence.
  - repeat split; simpl; try discriminate.
    intros _. eexists. split; [reflexivity|]. left. split; reflexivity.
Qed.

(** The walker is silent when it returns 0 and prints one message, for
    the path it visited last, when it fails. *)
Lemma HashTree_reports (n : node) :
  nonzero_codes n = true ->
  forall szPath s,
    reports szPath s (HashTree bIncludeNames excludeSpecList n szPath s).
Proof.
  induction n as [data|entries last_error IH] using node_ind;
    intros Hcodes szPath s; [apply HashFile_reports|].
  simpl in Hcodes. apply andb_prop in Hcodes as [Hle Hall].
  apply negb_true_iff, Z.eqb_neq in Hle.
  rewrite HashTree_Dir. unfold HashDirectory.
  destruct (skipped excludeSpecList szPath);
    [exists []; repeat split; simpl; congruence|].
  rewrite hash_name_appends.
  destruct (map (found_of bIncludeNames excludeSpecList) entries) eqn:Hmap.
  { exists []. repeat split; simpl; try contradiction.
    intros _. eexists. split; [reflexivity|]. right. left. reflexivity. }
  destruct (negb (last_error =? ERROR_NO_MORE_FILES)%Z).
  { exists []. repeat split; simpl; try contradiction.
    intros _. eexists. split; [reflexivity|]. right. right. reflexivity. }
  rewrite <- Hmap.
  match goal with |- context [visit_all ?l ?st] =>
    destruct (visit_all_reports l) with (s := st)
      as (more & Hv & Hok & Hfail) end.
  - eapply Permutation_Forall; [apply list_sort_perm|].
    rewrite list_content_items. rewrite Forall_forall. intros it Hit s'.
    apply in_map_iff in Hit as ([name child] & <- & He).
    apply filter_In in He as [He Hkept].
    rewrite Forall_forall in IH. rewrite forallb_forall in Hall.
    specialize (Hall (name, child) He). simpl in Hall, Hkept.
    apply negb_true_iff in Hkept. rewrite Hkept in Hall.
    unfold visit, item_of. simpl.
    apply (IH (name, child) He). exact Hall.
  - cbn [hash_input console visited enter] in Hv, Hok, Hfail |- *.
    exists more. repeat split.
    + rewrite Hv, <- app_assoc. reflexivity.
    + exact Hok.
    + intros Hne. destruct (Hfail Hne) as (Hmore & text & Hc & Hm).
      exists text. split; [exact Hc|].
      destruct more as [|q more']; [contradiction|]. exact Hm.
Qed.
End Reports.

(** X12.  Errors are reported once.  When the error codes of the system
    are not 0, the walker prints nothing as long as it succeeds; when it
    fails it prints exactly one message, and that message names the path
    it visited last, the place of the failure: nothing is visited or
    printed after it.  A failed run therefore shows, after the line that
    announces the hashing, this one message and the prompt. *)
Theorem X12_one_message_for_the_first_failure
        {shlwapi : Shlwapi} {openssl : OpenSSL} :
  (forall inc specs n szPath s,
      nonzero_codes n = true ->
      reports szPath s (HashTree inc specs n szPath s))
  /\ (forall w prog argv1 args o n,
         parse_args w args no_options = inl o ->
         length argv1 <= MAX_PATH - 3 ->
         target w = Some n ->
         nonzero_codes n = true ->
         exit_status (_tmain w (prog :: argv1 :: args)) <> 0%Z ->
         exists szPath text,
           failure_message szPath (fst (walk o argv1 n)) text
           /\ stdout (_tmain w (prog :: argv1 :: args))
              = banner ++ using_line (selected o) argv1 ++ text
                ++ WaitForExit (bDontWait o)
           /\ option_map (fun s => last (visited s) [])
                         (walked (_tmain w (prog :: argv1 :: args)))
              = Some szPath).
Proof.
  split; [intros; now apply HashTree_reports|].
  intros w prog argv1 args o n Hparse Hlen Htarget Hcodes Hexit.
  rewrite (tmain_accepts w prog argv1 args o n Hparse Hlen Htarget) in *.
  destruct (HashTree_reports (bIncludeNames o) (excludeSpecList o) n Hcodes
              (root_path n argv1) (initial o argv1))
    as (more & Hv & _ & Hfail).
  fold (walk o argv1 n) in Hv, Hfail.
  destruct (walk o argv1 n) as [e s] eqn:Hwalk.
  unfold initial in Hv, Hfail.
  cbn [fst snd visited console] in Hv, Hfail |- *.
  destruct (Z.eq_dec e 0) as [->|He].
  - rewrite (report_success o argv1 n s Hwalk) in Hexit.
    cbn [exit_status] in Hexit. contradiction.
  - rewrite (report_failure o argv1 n e s Hwalk He).
    destruct (Hfail He) as (text & Hc & Hm).
    exists (last (root_path n argv1 :: more) []), text.
    split; [exact Hm|]. cbn [stdout walked option_map]. split.
    + rewrite Hc, <- !app_assoc. reflexivity.
    + rewrite Hv. reflexivity.
Qed.

(** The run of the witness of C4: the message is for a.txt. *)
Lemma X12_one_message_for_the_first_failure_witness :
  let shlwapi := Sample.shlwapi in
  let openssl := Sample.openssl in
  let tree := directory [(L "B.txt", file "never read"); (L "a.txt", File None)] in
  reports (L "C:\t") fresh (HashTree false [] tree (L "C:\t") fresh)
  /\ console (snd (HashTree false [] tree (L "C:\t") fresh))
     = open_message (L "C:\t\a.txt").
Proof.
  intros shlwapi openssl tree. split; [|reflexivity].
  apply (proj1 X12_one_message_for_the_first_failure). reflexivity.
Defined.

(* ================================================================== *)
(** * The entries "." and ".." *)
(* ================================================================== *)

(** X13.  The directory entries "." and ".." play no part: the walker
    does on a listing with such an entry, wherever it stands, exactly what
    it does on the listing without it (which still delivers an entry).  It
    neither visits them nor hashes their names, so it never walks back
    into the directory or up to its parent. *)
Theorem X13_dot_entries_play_no_part
        {shlwapi : Shlwapi} inc specs szDirPath pre name child post last_error s
        (Hdot : is_dot name child = true)
        (Hrest : pre ++ post <> []) :
  HashTree inc specs (Dir (pre ++ (name, child) :: post) last_error) szDirPath s
  = HashTree inc specs (Dir (pre ++ post) last_error) szDirPath s.
Proof.
  rewrite !HashTree_Dir. unfold HashDirectory.
  rewrite !list_content_items, !filter_app. cbn [filter fst snd].
  rewrite Hdot. cbn [negb].
  destruct pre as [|e pre]; [|reflexivity].
  destruct post as [|e post]; [contradiction|reflexivity].
Qed.

Lemma X13_dot_entries_play_no_part_witness :
  let shlwapi := Sample.shlwapi in
  HashTree true [] (Dir ([(L "a.txt", file "hello")] ++ dotdot :: [dot])
                        ERROR_NO_MORE_FILES) (L "C:\t") fresh
  = HashTree true [] (Dir ([(L "a.txt", file "hello")] ++ [dot])
                          ERROR_NO_MORE_FILES) (L "C:\t") fresh.
Proof.
  intros shlwapi.
  apply X13_dot_entries_play_no_part; [reflexivity|discriminate].
Defined.
